(** * Qualite: running a process on a selection of files

    A shallow embedding of [src/qualite.ts] and [src/utils.ts].

    - JavaScript strings are sequences of UTF-16 code units: [jsstring] is
      [list N].  [String.prototype.trim], [String.prototype.split] and the
      relational operators on strings are written out on code units.
    - Immutable's [Set<string>] is a [gset jsstring]; the [OrderedSet] that
      [Set.sort] returns is the list of its elements in sorted order.
    - An RxJS observable that delivers one value or fails is a value of
      [Observable]; the stream of [mergeMap] is a step relation whose
      completions are chosen by the environment.
    - The process-wide effects ([child_process.exec], the pino logger,
      [process.exit]) act on an explicit [World]. *)

From Stdlib Require Import Ascii.
From stdpp Require Import gmap sorting pretty list strings.

Set Warnings "-clear-no-such-hyp".

Open Scope N_scope.

(** ** JavaScript strings *)

Abbreviation jsstring := (list N) (only parsing).

(** An ASCII literal as a JavaScript string. *)
Definition lit (s : string) : jsstring :=
  N_of_ascii <$> String.list_ascii_of_string s.
Arguments lit : simpl never.

Definition LF : N := 10.
Definition CR : N := 13.

(** [WhiteSpace] and [LineTerminator] code units of ECMAScript, the ones
    [String.prototype.trim] strips. *)
Definition isWhiteSpace (c : N) : bool :=
  (c =? 9) || (c =? 10) || (c =? 11) || (c =? 12) || (c =? 13) || (c =? 32)
  || (c =? 160) || (c =? 5760) || ((8192 <=? c) && (c <=? 8202))
  || (c =? 8232) || (c =? 8233) || (c =? 8239) || (c =? 8287)
  || (c =? 12288) || (c =? 65279).

Fixpoint trimStart (s : jsstring) : jsstring :=
  match s with
  | [] => []
  | c :: s' => if isWhiteSpace c then trimStart s' else s
  end.

Definition trimEnd (s : jsstring) : jsstring := rev (trimStart (rev s)).

(** [s.trim()] *)
Definition trim (s : jsstring) : jsstring := trimEnd (trimStart s).

(** [s.split(/\r?\n/)]: the separator is a line feed, together with the
    carriage return right before it when there is one.  The result always
    has at least one element. *)
Fixpoint split_newlines (s : jsstring) : list jsstring :=
  match s with
  | [] => [[]]
  | c :: s' =>
    let extend :=
      match split_newlines s' with
      | l :: ls => (c :: l) :: ls
      | [] => [[c]]
      end in
    if c =? LF then [] :: split_newlines s'
    else if c =? CR then
      match s' with
      | d :: s'' => if d =? LF then [] :: split_newlines s'' else extend
      | [] => extend
      end
    else extend
  end.

(** [a < b] on strings: lexicographic on code units. *)
Fixpoint js_ltb (a b : jsstring) : bool :=
  match a, b with
  | [], [] => false
  | [], _ :: _ => true
  | _ :: _, [] => false
  | x :: a', y :: b' =>
    if x <? y then true else if y <? x then false else js_ltb a' b'
  end.

(** Immutable's [defaultComparator]: [a > b ? 1 : a < b ? -1 : 0]. *)
Definition defaultComparator (a b : jsstring) : Z :=
  if js_ltb b a then 1%Z else if js_ltb a b then (-1)%Z else 0%Z.

(** The order a sort by [defaultComparator] establishes. *)
Definition js_le (a b : jsstring) : Prop := (defaultComparator a b ≤ 0)%Z.


#[global] Instance js_le_dec : RelDecision js_le.
Proof. intros a b. unfold js_le. apply _. Defined.

(** Template literals print numbers in decimal. *)
Definition showZ (z : Z) : jsstring := lit (pretty z).
Definition showNat (n : nat) : jsstring := lit (pretty n).

(** ** Types of [utils.ts] and [qualite.ts] *)

(** [error.code] of [child_process.exec]: the exit status of the shell, or
    the name of the system error when the shell could not be spawned. *)
Inductive ProcessCode :=
  | ExitCode (n : Z)
  | SpawnError (errno : jsstring).

#[global] Instance ProcessCode_eq_dec : EqDecision ProcessCode.
Proof. solve_decision. Defined.

Definition showCode (p : ProcessCode) : jsstring :=
  match p with
  | ExitCode n => showZ n
  | SpawnError e => e
  end.

Abbreviation StdOut := jsstring (only parsing).
Abbreviation StdErr := jsstring (only parsing).
Abbreviation ShellCommand := jsstring (only parsing).
Abbreviation FileName := jsstring (only parsing).
Abbreviation ProcessToRun := jsstring (only parsing).
Abbreviation MessageToLog := jsstring (only parsing).
Abbreviation GitBranch := jsstring (only parsing).
Abbreviation MaxParallel := Z (only parsing).

(** What the callback of [child_process.exec] receives. *)
Record ExecCallback := {
  cb_error : option ProcessCode;  (* [error.code] when [error] is set *)
  cb_stdout : jsstring;
  cb_stderr : jsstring;
}.

Record ChildProcess := {
  code : ProcessCode;
  stdout : StdOut;
  stderr : StdErr;
  error : bool;  (* whether the optional [error] field is set *)
}.

Record ChildProcessAndFileName := {
  child : ChildProcess;
  filename : FileName;
}.

Inductive Verbosity := Silent | LogErrors | LogEverything.

Inductive Files :=
  | AllInPwd
  | IndexedInGit
  | ModifiedSinceOriginMasterInGit
  | StagedInGit.

#[global] Instance Verbosity_eq_dec : EqDecision Verbosity.
Proof. solve_decision. Defined.

Inductive Color := green | red.

(** An observable that delivers one value, or fails with an error of
    type [E]: the rejected [ChildProcess] for [execP], the error of the
    file system for [recursive-readdir]. *)
Inductive Observable (E A : Type) :=
  | Next (a : A)
  | Error (e : E).
Arguments Next {E A} a.
Arguments Error {E A} e.

Definition omap {E A B} (f : A → B) (o : Observable E A) : Observable E B :=
  match o with
  | Next a => Next (f a)
  | Error e => Error e
  end.

(** [catchError(a => of(a))]: the error is delivered as a value. *)
Definition catchError_of {A} (o : Observable A A) : A :=
  match o with
  | Next a => a
  | Error e => e
  end.

(** The error a promise of [recursive-readdir] rejects with. *)
Record NodeError := { message : jsstring }.

(** The errors that can reach the subscriber of [filesToRunOn]. *)
Inductive Rejection :=
  | ChildFailed (c : ChildProcess)
  | ListingFailed (err : NodeError).

(** An observable seen as one whose errors are of a larger type. *)
Definition rejectWith {E F A} (g : E → F) (o : Observable E A)
  : Observable F A :=
  match o with
  | Next a => Next a
  | Error e => Error (g e)
  end.

(** ** The process and its environment *)

(** The observable state of the Node process: the shell commands handed to
    [child_process.exec], the lines pino wrote, the status [process.exit]
    was called with, and the error that escaped every handler. *)
Record World := {
  spawned : list ShellCommand;
  logged : list MessageToLog;
  exited : option Z;
  uncaught : option Rejection;
}.

Definition initialWorld : World :=
  {| spawned := []; logged := []; exited := None; uncaught := None |}.

Definition spawn (c : ShellCommand) (w : World) : World :=
  {| spawned := spawned w ++ [c]; logged := logged w;
     exited := exited w; uncaught := uncaught w |}.

Definition write (s : MessageToLog) (w : World) : World :=
  {| spawned := spawned w; logged := logged w ++ [s];
     exited := exited w; uncaught := uncaught w |}.

(** [process.exit(c)] *)
Definition process_exit (c : Z) (w : World) : World :=
  {| spawned := spawned w; logged := logged w;
     exited := Some c; uncaught := uncaught w |}.

(** An error delivered to a subscriber that has no error callback. *)
Definition throw (e : Rejection) (w : World) : World :=
  {| spawned := spawned w; logged := logged w;
     exited := exited w; uncaught := Some e |}.

(** A pino logger: [info] writes the message when the logger is enabled. *)
Record Logger := { enabled : bool }.

Definition info (l : Logger) (s : MessageToLog) (w : World) : World :=
  if enabled l then write s w else w.

Definition createLogger (v : Verbosity) : Logger :=
  {| enabled := bool_decide (v ≠ Silent) |}.

(** ** Parsing the output of git *)

(** [linesFromStdout] of [src/qualite.ts]. *)
Definition linesFromStdout (a : StdOut) : gset jsstring :=
  list_to_set (split_newlines a).

(** The revision of [qualite.ts] that exports its functions and calls
    [exec$]: its [linesFromStdout] tests for the empty string first. *)
Module Exported.

Definition linesFromStdout (a : StdOut) : gset jsstring :=
  if decide (a = []) then ∅ else list_to_set (split_newlines a).

(** [messageForOneFile] of that revision: the output is used as it is
    ([exec$] has trimmed it). *)
Definition messageForOneFile (chalk : Color → jsstring → jsstring)
    (f : FileName) (s : StdOut) (p : ProcessCode) (v : Verbosity)
    : MessageToLog :=
  let success := bool_decide (p = ExitCode 0) in
  let color := if success then green else red in
  let symbol := if success then [10003] else [10007] in
  let shouldLog := negb success || bool_decide (v = LogEverything) in
  let stdOut :=
    if shouldLog && negb (bool_decide (s = [])) then LF :: s else [] in
  let exitCode :=
    if success then [] else lit " (exit code: " ++ showCode p ++ lit ")" in
  chalk color (lit "  " ++ symbol ++ lit " " ++ f ++ exitCode ++ stdOut).

(** [messageForHeader] of that revision: [file] is put in the plural for
    more than one file. *)
Definition messageForHeader (f : list FileName) : MessageToLog :=
  let plural := if decide (1 < length f)%nat then lit "s" else [] in
  showNat (length f) ++ lit " file" ++ plural ++ lit " to process:" ++ [LF].

(** [messageForSummary] of that revision: the text of [src/qualite.ts],
    over this [messageForOneFile]. *)
Definition messageForSummary (chalk : Color → jsstring → jsstring)
    (p : list ChildProcessAndFileName) (v : Verbosity) : MessageToLog :=
  let failures := filter (λ a, code (child a) ≠ ExitCode 0) p in
  let summary := LF :: lit "Summary: " in
  if decide (length failures = 0%nat) then
    chalk green (summary ++ showNat (length p) ++ lit "/"
                 ++ showNat (length p) ++ lit " succeeded")
  else
    let failureLines :=
      foldl (λ acc e, acc ++ messageForOneFile chalk (filename e)
               (stdout (child e)) (code (child e)) v ++ [LF]) [] failures in
    chalk red (summary ++ showNat (length failures) ++ lit "/"
               ++ showNat (length p) ++ lit " failed" ++ [LF; LF]
               ++ failureLines).

End Exported.

(** The first revision of [qualite.ts], which folds the exit codes of the
    files instead of collecting their results. *)
Module Batches.

(** [resultMessage]: only the marker and the file name are coloured, the
    output follows as it is, even when it is empty. *)
Definition resultMessage (chalk : Color → jsstring → jsstring)
    (f : FileName) (std : StdOut) (s : bool) (v : Verbosity) : jsstring :=
  let color := if s then green else red in
  let symbol := if s then [10003] else [10007] in
  let stdOut :=
    if negb s || bool_decide (v = LogEverything) then LF :: std else [] in
  chalk color (lit "  " ++ symbol ++ lit " " ++ f) ++ stdOut.

(** [reduce((acc, e) => e !== 0 ? e : acc)] over the codes in the order the
    processes settle: without a seed the first code starts the fold, and
    nothing is delivered for no code at all. *)
Definition reduceCodes (codes : list ProcessCode) : option ProcessCode :=
  match codes with
  | [] => None
  | c :: cs =>
    Some (foldl (λ acc e, if decide (e ≠ ExitCode 0) then e else acc) c cs)
  end.

End Batches.

(** The lines of an output of git: the names, with [sep] between them. *)
Fixpoint joinLines (sep : jsstring) (names : list jsstring) : jsstring :=
  match names with
  | [] => []
  | [n] => n
  | n :: rest => n ++ sep ++ joinLines sep rest
  end.

(** The git commands a strategy runs. *)
Definition selectionCommands (target : GitBranch) (f : Files)
  : list ShellCommand :=
  match f with
  | AllInPwd => []
  | IndexedInGit => [lit "git ls-files"]
  | ModifiedSinceOriginMasterInGit =>
    [lit "git --no-pager diff --name-only --diff-filter=AM "
     ++ target ++ lit "...HEAD";
     lit "git --no-pager diff --name-only --diff-filter=AM --staged"]
  | StagedInGit =>
    [lit "git --no-pager diff --name-only --diff-filter=AM --staged"]
  end.

(** [files.sort()]: the elements in the order of [defaultComparator]. *)
Definition sortFiles (files : gset jsstring) : list jsstring :=
  merge_sort js_le (elements files).

(** ** A model of regular expressions

    Patterns built from literal characters, [.]-like wildcards, sequence,
    alternative and iteration, with the anchors [^] and [$]; [test] looks
    for a match anywhere in the string unless an anchor forbids it. *)
Module Regex.

Inductive re :=
  | Void
  | Eps
  | Chr (c : N)
  | AnyChar
  | Cat (r s : re)
  | Alt (r s : re)
  | Star (r : re).

Fixpoint nullable (r : re) : bool :=
  match r with
  | Void | Chr _ | AnyChar => false
  | Eps | Star _ => true
  | Cat r s => nullable r && nullable s
  | Alt r s => nullable r || nullable s
  end.

Fixpoint deriv (c : N) (r : re) : re :=
  match r with
  | Void | Eps => Void
  | Chr d => if c =? d then Eps else Void
  | AnyChar => Eps
  | Cat r s =>
    if nullable r then Alt (Cat (deriv c r) s) (deriv c s)
    else Cat (deriv c r) s
  | Alt r s => Alt (deriv c r) (deriv c s)
  | Star r => Cat (deriv c r) (Star r)
  end.

Fixpoint matches (r : re) (s : jsstring) : bool :=
  match s with
  | [] => nullable r
  | c :: s' => matches (deriv c r) s'
  end.

Definition word (s : jsstring) : re := foldr (λ c r, Cat (Chr c) r) Eps s.

Record RegExp := {
  anchoredStart : bool;
  body : re;
  anchoredEnd : bool;
}.

Definition test (rx : RegExp) (s : jsstring) : bool :=
  matches
    (Cat (if anchoredStart rx then Eps else Star AnyChar)
       (Cat (body rx) (if anchoredEnd rx then Eps else Star AnyChar))) s.

End Regex.

(** ** Concrete collaborators, for the scenarios *)

(** [chalk] on a terminal without colour support returns its argument. *)
Definition plainChalk (c : Color) (s : jsstring) : jsstring := s.

Definition noEnv (name : jsstring) : option jsstring := None.

(** Every command succeeds and prints nothing. *)
Definition quietExec (c : ShellCommand) : ExecCallback :=
  {| cb_error := None; cb_stdout := []; cb_stderr := [] |}.

(** The two diffs of [ModifiedSinceOriginMasterInGit] name one file each. *)
Definition twoDiffsExec (c : ShellCommand) : ExecCallback :=
  if decide (c = lit "git --no-pager diff --name-only --diff-filter=AM --staged")
  then {| cb_error := None; cb_stdout := lit "b.ts" ++ [LF]; cb_stderr := [] |}
  else {| cb_error := None; cb_stdout := lit "a.ts" ++ [LF]; cb_stderr := [] |}.

(** A linter that rejects [b.txt] with status 1 and accepts everything
    else. *)
Definition lintExec (c : ShellCommand) : ExecCallback :=
  if decide (c = lit "lint b.txt 2>&1")
  then {| cb_error := Some (ExitCode 1); cb_stdout := lit "bad syntax" ++ [LF];
          cb_stderr := [] |}
  else {| cb_error := None; cb_stdout := []; cb_stderr := [] |}.

(** The patterns [/\.json$/] and [/^pack/]. *)
Definition json_at_end : Regex.RegExp :=
  {| Regex.anchoredStart := false; Regex.body := Regex.word (lit ".json");
     Regex.anchoredEnd := true |}.

Definition pack_at_start : Regex.RegExp :=
  {| Regex.anchoredStart := true; Regex.body := Regex.word (lit "pack");
     Regex.anchoredEnd := false |}.

(** Every command fails the way git does outside a repository. *)
Definition gitFailsExec (c : ShellCommand) : ExecCallback :=
  {| cb_error := Some (ExitCode 128); cb_stdout := [];
     cb_stderr := lit "fatal: not a git repository" ++ [LF] |}.

(** git prints the two names [a.ts] and [b.ts], one per line. *)
Definition twoNamesExec (c : ShellCommand) : ExecCallback :=
  {| cb_error := None; cb_stdout := lit "a.ts" ++ [LF] ++ lit "b.ts" ++ [LF];
     cb_stderr := [] |}.

Section Qualite.

#[local] Set Default Proof Using "Type".

(** The collaborators of the program. *)

(** [child_process.exec]: what the callback receives for a command. *)
Variable exec : ShellCommand → ExecCallback.
(** [chalk[color]] *)
Variable chalk : Color → jsstring → jsstring.
(** Regular expressions and [RegExp.prototype.test] (without the [g] and
    [y] flags, [test] depends on the string only). *)
Variable RegExp : Type.
Variable test : RegExp → jsstring → bool.
(** [process.env] *)
Variable env : jsstring → option jsstring.
(** What the promise of [recursive-readdir] settles with for
    [process.cwd()]: the files under it, or an error of the file system. *)
Variable recursive_cwd : Observable NodeError (list FileName).

Abbreviation PatternWhitelist := (list RegExp) (only parsing).
Abbreviation PatternBlacklist := (list RegExp) (only parsing).

(** *** [utils.ts] *)

(** The [ChildProcess] the promise of [execP] settles with. *)
Definition execP_settle (process : ShellCommand)
  : Observable ChildProcess ChildProcess :=
  let cb := exec process in
  match cb_error cb with
  | Some c =>
    Error {| code := c; stdout := trim (cb_stdout cb);
             stderr := trim (cb_stderr cb); error := true |}
  | None =>
    Next {| code := ExitCode 0; stdout := trim (cb_stdout cb);
            stderr := trim (cb_stderr cb); error := false |}
  end.

Definition execP (process : ShellCommand) (w : World)
  : Observable ChildProcess ChildProcess * World :=
  (execP_settle process, spawn process w).

(** *** Messages *)

Definition messageForOneFile (f : FileName) (s : StdOut) (p : ProcessCode)
    (v : Verbosity) : MessageToLog :=
  let success := bool_decide (p = ExitCode 0) in
  let color := if success then green else red in
  let symbol := if success then [10003] else [10007] in
  let stdOutTrimmed := trim s in
  let shouldLog := negb success || bool_decide (v = LogEverything) in
  let stdOut :=
    if shouldLog && negb (bool_decide (stdOutTrimmed = []))
    then LF :: stdOutTrimmed else [] in
  let exitCode :=
    if success then [] else lit " (exit code: " ++ showCode p ++ lit ")" in
  chalk color (lit "  " ++ symbol ++ lit " " ++ f ++ exitCode ++ stdOut).

Definition messageForSummary (p : list ChildProcessAndFileName)
    (v : Verbosity) : MessageToLog :=
  let failures := filter (λ a, code (child a) ≠ ExitCode 0) p in
  let summary := LF :: lit "Summary: " in
  if decide (length failures = 0%nat) then
    chalk green (summary ++ showNat (length p) ++ lit "/"
                 ++ showNat (length p) ++ lit " succeeded")
  else
    let failureLines :=
      foldl (λ acc e, acc ++ messageForOneFile (filename e)
               (stdout (child e)) (code (child e)) v ++ [LF]) [] failures in
    chalk red (summary ++ showNat (length failures) ++ lit "/"
               ++ showNat (length p) ++ lit " failed" ++ [LF; LF]
               ++ failureLines).

Definition messageForNoFile : MessageToLog :=
  chalk green (lit "No file to process").

Definition messageForHeader (f : list FileName) : MessageToLog :=
  showNat (length f) ++ lit " files to process:" ++ [LF].

(** *** Selecting the files *)

(** A variable of [process.env] counts when it is set and not empty. *)
Definition targetBranch : GitBranch :=
  match env (lit "STASH_PULL_REQUEST_BRANCH_DESTINATION") with
  | Some (c :: s) => lit "stash/" ++ c :: s
  | _ =>
    match env (lit "CHANGE_TARGET") with
    | Some (c :: s) => lit "upstream/" ++ c :: s
    | _ => lit "origin/master"
    end
  end.

Definition git_diff_target : ShellCommand :=
  lit "git --no-pager diff --name-only --diff-filter=AM "
  ++ targetBranch ++ lit "...HEAD".

Definition git_diff_staged : ShellCommand :=
  lit "git --no-pager diff --name-only --diff-filter=AM --staged".

Definition git_ls_files : ShellCommand := lit "git ls-files".

(** [forkJoin] of two observables: both are subscribed to, the result
    is the pair of their values, or the error of one that failed (of the
    first of the two here). *)
Definition forkJoin2 {E A B} (a : Observable E A) (b : Observable E B)
  : Observable E (A * B) :=
  match a, b with
  | Next x, Next y => Next (x, y)
  | Error e, _ => Error e
  | _, Error e => Error e
  end.

Definition modifiedSinceOriginMasterInGit (w : World)
  : Observable ChildProcess (gset jsstring) * World :=
  let '(a, w1) := execP git_diff_target w in
  let '(b, w2) := execP git_diff_staged w1 in
  (omap (λ ab, linesFromStdout (stdout ab.1 ++ stdout ab.2)) (forkJoin2 a b),
   w2).

Definition indexedInGit (w : World)
  : Observable ChildProcess (gset jsstring) * World :=
  let '(a, w1) := execP git_ls_files w in
  (omap (λ a, linesFromStdout (stdout a)) a, w1).

Definition allInPwd (w : World)
  : Observable NodeError (gset jsstring) * World :=
  (omap list_to_set recursive_cwd, w).

Definition stagedInGit (w : World)
  : Observable ChildProcess (gset jsstring) * World :=
  let '(a, w1) := execP git_diff_staged w in
  (omap (λ a, linesFromStdout (stdout a)) a, w1).

Definition _filesToRunOn (f : Files) (w : World)
  : Observable Rejection (gset jsstring) * World :=
  match f with
  | AllInPwd =>
    let '(r, w1) := allInPwd w in (rejectWith ListingFailed r, w1)
  | IndexedInGit =>
    let '(r, w1) := indexedInGit w in (rejectWith ChildFailed r, w1)
  | ModifiedSinceOriginMasterInGit =>
    let '(r, w1) := modifiedSinceOriginMasterInGit w in
    (rejectWith ChildFailed r, w1)
  | StagedInGit =>
    let '(r, w1) := stagedInGit w in (rejectWith ChildFailed r, w1)
  end.

(** *** The pattern filter: the three [map]s of [filesToRunOn] *)

Definition keepWhitelisted (wl : PatternWhitelist) (files : gset jsstring)
  : gset jsstring :=
  if decide (0 < length wl)%nat
  then filter (λ f, existsb (λ wlp, test wlp f) wl = true) files
  else files.

Definition dropBlacklisted (bl : PatternBlacklist) (files : gset jsstring)
  : gset jsstring :=
  if decide (0 < length bl)%nat
  then filter (λ f, forallb (λ blp, negb (test blp f)) bl = true) files
  else files.

Definition patternFilter (wl : PatternWhitelist) (bl : PatternBlacklist)
    (files : gset jsstring) : list FileName :=
  sortFiles (dropBlacklisted bl (keepWhitelisted wl files)).

Definition filesToRunOn (fi : Files) (wl : PatternWhitelist)
    (bl : PatternBlacklist) (w : World)
  : Observable Rejection (list FileName) * World :=
  let '(files, w1) := _filesToRunOn fi w in
  (omap (patternFilter wl bl) files, w1).

(** *** Running the process *)

Definition commandFor (p : ProcessToRun) (f : FileName) : ShellCommand :=
  p ++ lit " " ++ f ++ lit " 2>&1".

(** The value [execProcess] delivers: a rejection is caught and delivered
    like a result. *)
Definition execProcess (p : ProcessToRun) (f : FileName)
  : ChildProcessAndFileName :=
  {| child := catchError_of (execP_settle (commandFor p f)); filename := f |}.

(** The state of [mergeMap(.., m)] under the subscription of [runAll]:
    the files waiting in its buffer, the files whose process is running,
    the list [reduce] has accumulated, and the process state. *)
Record Pool := {
  buffer : list FileName;
  active : list FileName;
  acc : list ChildProcessAndFileName;
  world : World;
}.

(** [MergeMapSubscriber._next]: start the inner observable when fewer
    than [m] are active, else buffer the value. *)
Definition mergeMap_next (p : ProcessToRun) (m : MaxParallel) (a : FileName)
    (st : Pool) : Pool :=
  if decide (Z.of_nat (length (active st)) < m)%Z
  then {| buffer := buffer st; active := active st ++ [a]; acc := acc st;
          world := spawn (commandFor p a) (world st) |}
  else {| buffer := buffer st ++ [a]; active := active st; acc := acc st;
          world := world st |}.

(** [from(f.toArray())] delivers every file at subscription. *)
Definition subscribe (p : ProcessToRun) (m : MaxParallel)
    (f : list FileName) (w : World) : Pool :=
  foldl (λ st a, mergeMap_next p m a st) 
    {| buffer := []; active := []; acc := []; world := w |} f.

(** The process of the [i]-th active file [f] settles: the callback of
    [reduce] logs its line and pushes the result, then
    [MergeMapSubscriber.notifyComplete] takes the next file from the
    buffer. *)
Definition notifyComplete (p : ProcessToRun) (m : MaxParallel) (l : Logger)
    (v : Verbosity) (i : nat) (f : FileName) (st : Pool) : Pool :=
  let e := execProcess p f in
  let w :=
    info l (messageForOneFile (filename e) (stdout (child e))
              (code (child e)) v) (world st) in
  let st' := {| buffer := buffer st; active := delete i (active st);
                acc := acc st ++ [e]; world := w |} in
  match buffer st' with
  | a :: rest =>
    mergeMap_next p m a
      {| buffer := rest; active := active st'; acc := acc st';
         world := world st' |}
  | [] => st'
  end.

Inductive step (p : ProcessToRun) (m : MaxParallel) (l : Logger)
    (v : Verbosity) : Pool → Pool → Prop :=
  | step_settle st i f :
      active st !! i = Some f →
      step p m l v st (notifyComplete p m l v i f st).

(** The merged observable completes when nothing is active or buffered. *)
Definition completed (st : Pool) : Prop := active st = [] ∧ buffer st = [].

(** The subscriber of [runAll]. *)
Definition exitStatus (a : list ChildProcessAndFileName) : Z :=
  if existsb (λ b, bool_decide (code (child b) ≠ ExitCode 0)) a
  then 1%Z else 0%Z.

Definition summarize (l : Logger) (v : Verbosity)
    (a : list ChildProcessAndFileName) (w : World) : World :=
  process_exit (exitStatus a) (info l (messageForSummary a v) w).

(** [runAll f p m l v] takes the process from [w] to [w'] when the
    processes settle in some order and the summary is written. *)
Inductive runAll (f : list FileName) (p : ProcessToRun) (m : MaxParallel)
    (l : Logger) (v : Verbosity) (w : World) : World → Prop :=
  | runAll_completes st :
      rtc (step p m l v) (subscribe p m f (info l (messageForHeader f) w)) st →
      completed st →
      runAll f p m l v w (summarize l v (acc st) (world st)).

Definition nothingToRun (l : Logger) (w : World) : World :=
  process_exit 0 (info l messageForNoFile w).

Inductive runProcessForEachFile (p : ProcessToRun) (f : Files)
    (wl : PatternWhitelist) (bl : PatternBlacklist) (m : MaxParallel)
    (v : Verbosity) (w : World) : World → Prop :=
  | run_nothing w1 files :
      filesToRunOn f wl bl w = (Next files, w1) →
      length files = 0%nat →
      runProcessForEachFile p f wl bl m v w (nothingToRun (createLogger v) w1)
  | run_all w1 files w2 :
      filesToRunOn f wl bl w = (Next files, w1) →
      length files ≠ 0%nat →
      runAll files p m (createLogger v) v w1 w2 →
      runProcessForEachFile p f wl bl m v w w2
  | run_error w1 e :
      filesToRunOn f wl bl w = (Error e, w1) →
      runProcessForEachFile p f wl bl m v w (throw e w1).

(** The pool driven by a schedule: each number picks the active process
    that settles next (modulo the number of active processes). *)
Fixpoint runSchedule (p : ProcessToRun) (m : MaxParallel) (l : Logger)
    (v : Verbosity) (sched : list nat) (st : Pool) : Pool :=
  match sched with
  | [] => st
  | k :: sched' =>
    let i := (k mod length (active st))%nat in
    match active st !! i with
    | Some f => runSchedule p m l v sched' (notifyComplete p m l v i f st)
    | None => st
    end
  end.

#[global] Instance completed_dec st : Decision (completed st).
Proof. unfold completed. apply _. Defined.

(** [runAll] under a schedule, when the schedule runs the pool to
    completion. *)
Definition runAllWith (sched : list nat) (f : list FileName)
    (p : ProcessToRun) (m : MaxParallel) (l : Logger) (v : Verbosity)
    (w : World) : option World :=
  let st := runSchedule p m l v sched
              (subscribe p m f (info l (messageForHeader f) w)) in
  if decide (completed st) then Some (summarize l v (acc st) (world st))
  else None.

(** A result counts as failed when its process exited with a status other
    than zero, or could not be spawned. *)
Definition nonZeroExit (c : ChildProcess) : Prop :=
  ∃ n, code c = ExitCode n ∧ n ≠ 0%Z.

Definition failedToSpawn (c : ChildProcess) : Prop :=
  ∃ e, code c = SpawnError e.

(** The entry point: the patterns become sets, and the last two arguments
    change places. *)
Definition qualite (processToRun : jsstring) (filesToProcess : Files)
    (patternWhitelist patternBlacklist : list RegExp) (verbosity : Verbosity)
    (maxParallel : Z) : World → World → Prop :=
  runProcessForEachFile processToRun filesToProcess patternWhitelist
    patternBlacklist maxParallel verbosity.

(** *** Notions used in the statements *)

(** The first line of the message for a file: marker, file name and, for
    a failure, the exit code. *)
Definition statusLine (f : FileName) (p : ProcessCode) : jsstring :=
  if decide (p = ExitCode 0)
  then lit "  " ++ [10003] ++ lit " " ++ f
  else lit "  " ++ [10007] ++ lit " " ++ f
       ++ lit " (exit code: " ++ showCode p ++ lit ")".

(** The output of a process below the first line: nothing at all when
    there is no output, else a line break and the output. *)
Definition bodyBelow (s : StdOut) : jsstring :=
  if decide (s = []) then [] else LF :: s.

Definition colorFor (p : ProcessCode) : Color :=
  if decide (p = ExitCode 0) then green else red.

(** The files whose result is still to come. *)
Definition pending (st : Pool) : list FileName := active st ++ buffer st.


(** Results and pending files together always account for every file. *)
Definition accounted (p : ProcessToRun) (f : list FileName) (st : Pool) : Prop :=
  acc st ++ (execProcess p <$> pending st) ≡ₚ execProcess p <$> f.

(** At most [m] processes run at a time, and with [1 ≤ m] files wait only
    while a process is running. *)
Definition bounded (m : MaxParallel) (st : Pool) : Prop :=
  (Z.of_nat (length (active st)) ≤ Z.max m 0)%Z
  ∧ ((1 ≤ m)%Z → active st = [] → buffer st = []).

(** The files handed to [exec] so far are a prefix of the list, in its
    order: those with a result and those running. *)
Definition dispatched (p : ProcessToRun) (f : list FileName) (w0 : World)
    (st : Pool) : Prop :=
  ∃ started,
    f = started ++ buffer st
    ∧ started ≡ₚ (filename <$> acc st) ++ active st
    ∧ spawned (world st) = spawned w0 ++ (commandFor p <$> started).

(** Files wait in the buffer only while [m] processes are running. *)
Definition saturated (m : MaxParallel) (st : Pool) : Prop :=
  buffer st ≠ [] → (m ≤ Z.of_nat (length (active st)))%Z.

(** The lines [runAll] has logged for the results collected so far. *)
Definition linesFor (v : Verbosity) (a : list ChildProcessAndFileName)
  : list MessageToLog :=
  (λ e, messageForOneFile (filename e) (stdout (child e)) (code (child e)) v)
  <$> a.

(** ** Strings *)

Lemma trimStart_idem s : trimStart (trimStart s) = trimStart s.
Proof.
  induction s as [|c s IH]; [done|]. simpl.
  destruct (isWhiteSpace c) eqn:E; [done|]. simpl. by rewrite E.
Qed.

Lemma trimStart_head s :
  trimStart s = [] ∨ ∃ c s', trimStart s = c :: s' ∧ isWhiteSpace c = false.
Proof.
  induction s as [|c s IH]; [by left|]. simpl.
  destruct (isWhiteSpace c) eqn:E; [done|]. right. eauto.
Qed.

Lemma trimStart_fixed c s : isWhiteSpace c = false → trimStart (c :: s) = c :: s.
Proof. intros E. simpl. by rewrite E. Qed.

Lemma trimStart_snoc s c :
  isWhiteSpace c = false → trimStart (s ++ [c]) = trimStart s ++ [c].
Proof.
  intros E. induction s as [|d s IH]; simpl; [by rewrite E|].
  by destruct (isWhiteSpace d).
Qed.

Lemma trimEnd_idem s : trimEnd (trimEnd s) = trimEnd s.
Proof. unfold trimEnd. by rewrite rev_involutive, trimStart_idem. Qed.

Lemma trimEnd_cons c s :
  isWhiteSpace c = false → ∃ s', trimEnd (c :: s) = c :: s'.
Proof.
  intros E. unfold trimEnd. simpl. rewrite trimStart_snoc by done.
  rewrite rev_app_distr. simpl. eauto.
Qed.

Lemma trim_idem s : trim (trim s) = trim s.
Proof.
  unfold trim. destruct (trimStart_head s) as [->|(c & s' & -> & E)]; [done|].
  destruct (trimEnd_cons c s' E) as [t Ht].
  rewrite Ht, trimStart_fixed by done. rewrite <- Ht. apply trimEnd_idem.
Qed.

Lemma trimStart_whitespace s : forallb isWhiteSpace s = true → trimStart s = [].
Proof.
  induction s as [|c s IH]; [done|]. simpl.
  destruct (isWhiteSpace c); [auto|done].
Qed.

Lemma trim_whitespace s : forallb isWhiteSpace s = true → trim s = [].
Proof. intros H. unfold trim. by rewrite trimStart_whitespace. Qed.

(** ** The order of [defaultComparator] *)

Lemma js_le_ltb a b : js_le a b ↔ js_ltb b a = false.
Proof.
  unfold js_le, defaultComparator.
  destruct (js_ltb b a); [split; [lia|done]|].
  destruct (js_ltb a b); split; (done || lia).
Qed.

Lemma js_ltb_irrefl a : js_ltb a a = false.
Proof.
  induction a as [|x a IH]; [done|]. simpl.
  destruct (N.ltb_spec x x); [lia|done].
Qed.

Lemma js_ltb_trans a b c :
  js_ltb a b = true → js_ltb b c = true → js_ltb a c = true.
Proof.
  revert b c. induction a as [|x a IH]; intros [|y b] [|z c]; simpl; try done.
  destruct (N.ltb_spec x y), (N.ltb_spec y x), (N.ltb_spec y z),
    (N.ltb_spec z y), (N.ltb_spec x z), (N.ltb_spec z x);
    try done; try lia; eauto.
Qed.

Lemma js_ltb_asym a b : js_ltb a b = true → js_ltb b a = false.
Proof.
  revert b. induction a as [|x a IH]; intros [|y b]; simpl; try done.
  destruct (N.ltb_spec x y), (N.ltb_spec y x); try done; try lia; eauto.
Qed.

Lemma js_ltb_connex a b : js_ltb a b = false → js_ltb b a = false → a = b.
Proof.
  revert b. induction a as [|x a IH]; intros [|y b]; simpl; try done.
  destruct (N.ltb_spec x y), (N.ltb_spec y x); try done.
  intros. assert (x = y) as -> by lia. f_equal. eauto.
Qed.

(** [js_ltb] is the lexicographic order on code units: [a] is a proper
    prefix of [b], or the two differ first at a position where [a] has the
    smaller code unit. *)
Lemma js_ltb_lexicographic a b :
  js_ltb a b = true
  ↔ (∃ c t, b = a ++ c :: t)
    ∨ (∃ pre x s y t, a = pre ++ x :: s ∧ b = pre ++ y :: t ∧ x < y).
Proof.
  revert b. induction a as [|x a IH]; intros [|y b]; simpl.
  - split; [done|]. intros [(c & t & H)|(pre & ? & ? & ? & ? & H & _)];
      [done|by destruct pre].
  - split; [|done]. intros _. left. by exists y, b.
  - split; [done|]. intros [(c & t & H)|(pre & ? & ? & ? & ? & _ & H & _)];
      [done|by destruct pre].
  - destruct (N.ltb_spec x y) as [Hxy|Hxy].
    { split; [|done]. intros _. right. by exists [], x, a, y, b. }
    destruct (N.ltb_spec y x) as [Hyx|Hyx].
    { split; [done|]. intros [(c & t & H)|(pre & x' & s & y' & t & Ha & Hb & Hlt)].
      - injection H as -> _. lia.
      - destruct pre; simplify_eq/=; lia. }
    assert (x = y) as -> by lia. rewrite IH. split.
    + intros [(c & t & ->)|(pre & x' & s & y' & t & -> & -> & Hlt)].
      * left. by exists c, t.
      * right. by exists (y :: pre), x', s, y', t.
    + intros [(c & t & H)|(pre & x' & s & y' & t & Ha & Hb & Hlt)].
      * injection H as ->. left. by exists c, t.
      * destruct pre as [|z pre]; simplify_eq/=; [lia|].
        right. by exists pre, x', s, y', t.
Qed.

#[global] Instance js_le_total : Total js_le.
Proof.
  intros a b. rewrite !js_le_ltb.
  destruct (js_ltb b a) eqn:E; [right; by apply js_ltb_asym|by left].
Qed.

#[global] Instance js_le_antisymm : AntiSymm (=) js_le.
Proof. intros a b. rewrite !js_le_ltb. intros. by apply js_ltb_connex. Qed.

#[global] Instance js_le_trans : Transitive js_le.
Proof.
  intros a b c. rewrite !js_le_ltb. intros Hba Hcb.
  destruct (js_ltb c a) eqn:Hca; [|done].
  destruct (js_ltb a b) eqn:Hab.
  - by rewrite (js_ltb_trans c a b) in Hcb.
  - assert (a = b) as -> by by apply js_ltb_connex. congruence.
Qed.

(** ** [Set.sort] *)

Lemma sortFiles_Permutation (X : gset jsstring) : sortFiles X ≡ₚ elements X.
Proof. apply merge_sort_Permutation. Qed.

Lemma elem_of_sortFiles (X : gset jsstring) f : f ∈ sortFiles X ↔ f ∈ X.
Proof. by rewrite sortFiles_Permutation, elem_of_elements. Qed.


Lemma Sorted_sortFiles (X : gset jsstring) : StronglySorted js_le (sortFiles X).
Proof. apply StronglySorted_merge_sort; apply _. Qed.



(** Sorting is determined by the set: any strictly sorted enumeration of
    a set is the one [sortFiles] returns. *)
Lemma sortFiles_unique (X : gset jsstring) (l : list jsstring) :
  StronglySorted js_le l → l ≡ₚ elements X → sortFiles X = l.
Proof.
  intros Hl Hp. apply (StronglySorted_unique js_le); [apply Sorted_sortFiles|done|].
  by rewrite sortFiles_Permutation.
Qed.

(** ** The pattern filter *)








(** ** Messages *)

Lemma messageForOneFile_unfold f s p v :
  messageForOneFile f s p v
  = chalk (colorFor p)
      (statusLine f p
       ++ (if decide (p ≠ ExitCode 0 ∨ v = LogEverything)
           then bodyBelow (trim s) else [])).
Proof.
  unfold messageForOneFile, statusLine, bodyBelow, colorFor.
  destruct (decide (p = ExitCode 0)) as [->|Hp].
  - rewrite bool_decide_eq_true_2 by done. simpl negb. simpl orb.
    destruct v; simpl; try (rewrite !app_nil_r; done);
    case_decide; try naive_solver; destruct (trim s); simpl; done.
  - rewrite bool_decide_eq_false_2 by done. simpl negb. simpl orb.
    rewrite decide_True by auto. rewrite <- !app_assoc.
    destruct (trim s); simpl; done.
Qed.

Lemma messageForOneFile_failed_verbosity f s p v v' :
  p ≠ ExitCode 0 → messageForOneFile f s p v = messageForOneFile f s p v'.
Proof. intros Hp. rewrite !messageForOneFile_unfold. by rewrite !decide_True by auto. Qed.

Lemma execProcess_stdout_trimmed p f :
  trim (stdout (child (execProcess p f))) = stdout (child (execProcess p f)).
Proof.
  unfold execProcess, execP_settle. simpl.
  destruct (cb_error _); simpl; apply trim_idem.
Qed.

Lemma execProcess_filename p f : filename (execProcess p f) = f.
Proof. done. Qed.

(** C7: a successful result under [LogErrors] is rendered as the marker
    and the file name alone; a failed result of the run is rendered, at
    every verbosity, as the marker, the file name and the exit code,
    followed by its whole captured output. *)
Theorem messageForOneFile_rendering p f v :
  let r := execProcess p f in
  (∀ f' s, messageForOneFile f' s (ExitCode 0) LogErrors
           = chalk green (lit "  " ++ [10003] ++ lit " " ++ f'))
  ∧ (code (child r) ≠ ExitCode 0 →
     messageForOneFile (filename r) (stdout (child r)) (code (child r)) v
     = chalk red
         (lit "  " ++ [10007] ++ lit " " ++ f ++ lit " (exit code: "
          ++ showCode (code (child r)) ++ lit ")"
          ++ bodyBelow (stdout (child r)))).
Proof.
  clear env.
  intros r. split.
  - intros f' s. rewrite messageForOneFile_unfold.
    unfold colorFor, statusLine. rewrite !decide_True by done.
    rewrite decide_False by naive_solver. by rewrite !app_nil_r.
  - intros Hr. rewrite messageForOneFile_unfold.
    unfold colorFor, statusLine. rewrite !decide_False by done.
    rewrite decide_True by auto. subst r.
    rewrite execProcess_stdout_trimmed, execProcess_filename.
    by rewrite <- !app_assoc.
Qed.

(** C10: the message is built from the trimmed output, and has no body
    when the trimmed output is empty, whatever the exit code and the
    verbosity; an output of white space only trims to the empty string. *)
Theorem messageForOneFile_trims f s p v :
  messageForOneFile f s p v = messageForOneFile f (trim s) p v
  ∧ (trim s = [] →
     messageForOneFile f s p v = chalk (colorFor p) (statusLine f p))
  ∧ (forallb isWhiteSpace s = true →
     messageForOneFile f s p v = chalk (colorFor p) (statusLine f p)).
Proof.
  assert (trim s = [] →
          messageForOneFile f s p v = chalk (colorFor p) (statusLine f p)) as H.
  { intros Hs. rewrite messageForOneFile_unfold, Hs. unfold bodyBelow. simpl.
    case_decide; by rewrite app_nil_r. }
  split_and!; [|done|].
  - by rewrite !messageForOneFile_unfold, trim_idem.
  - intros Hs. by apply H, trim_whitespace.
Qed.

Lemma foldl_append {A} (g : A → jsstring) (l : list A) (a : jsstring) :
  foldl (λ acc e, acc ++ g e) a l = a ++ concat (g <$> l).
Proof.
  revert a. induction l as [|x l IH]; intros a; simpl; [by rewrite app_nil_r|].
  by rewrite IH, app_assoc.
Qed.

Lemma filter_failed_nil (p : list ChildProcessAndFileName) :
  filter (λ a, code (child a) ≠ ExitCode 0) p = [] →
  filter (λ a, code (child a) = ExitCode 0) p = p.
Proof.
  induction p as [|a p IH]; [done|].
  rewrite !filter_cons. destruct (decide (code (child a) = ExitCode 0)) as [E|E].
  - rewrite decide_False by naive_solver. intros H. f_equal. auto.
  - rewrite decide_True by done. done.
Qed.

Lemma failure_lines_verbosity (l : list ChildProcessAndFileName) v v' :
  Forall (λ a, code (child a) ≠ ExitCode 0) l →
  concat ((λ e, messageForOneFile (filename e) (stdout (child e))
                  (code (child e)) v ++ [LF]) <$> l)
  = concat ((λ e, messageForOneFile (filename e) (stdout (child e))
                    (code (child e)) v' ++ [LF]) <$> l).
Proof.
  induction 1 as [|a l Ha _ IH]; [done|].
  rewrite !fmap_cons. cbn [concat]. rewrite IH. do 2 f_equal.
  by apply messageForOneFile_failed_verbosity.
Qed.

(** The text of the summary: without failures it reads
    [<successCount>/<totalCount> succeeded]; with failures it reads
    [<failedCount>/<totalCount> failed], followed by the line of every
    failed file with its output, the same at every verbosity. *)
Theorem messageForSummary_spec p v :
  let failures := filter (λ a, code (child a) ≠ ExitCode 0) p in
  let successes := filter (λ a, code (child a) = ExitCode 0) p in
  (failures = [] →
   messageForSummary p v
   = chalk green (LF :: lit "Summary: " ++ showNat (length successes) ++ lit "/"
                  ++ showNat (length p) ++ lit " succeeded"))
  ∧ (failures ≠ [] →
     messageForSummary p v
     = chalk red (LF :: lit "Summary: " ++ showNat (length failures) ++ lit "/"
                  ++ showNat (length p) ++ lit " failed" ++ [LF; LF]
                  ++ concat ((λ e, messageForOneFile (filename e)
                                     (stdout (child e)) (code (child e))
                                     LogEverything ++ [LF]) <$> failures))).
Proof.
  intros failures successes. unfold messageForSummary. fold failures. split.
  - intros Hf. subst successes. rewrite filter_failed_nil by done.
    rewrite Hf. by rewrite decide_True by done.
  - intros Hf. rewrite decide_False by (by destruct failures).
    rewrite foldl_append, app_nil_l.
    rewrite (failure_lines_verbosity failures v LogEverything); [done|].
    apply Forall_forall. intros a Ha. by apply list_elem_of_filter in Ha as [? _].
Qed.

(** ** The bounded pool *)

Lemma mergeMap_next_pending p m a st :
  pending (mergeMap_next p m a st) ≡ₚ a :: pending st.
Proof.
  unfold mergeMap_next, pending. case_decide; simpl.
  - rewrite <- app_assoc. simpl. by rewrite <- Permutation_middle.
  - rewrite app_assoc. by rewrite <- Permutation_cons_append.
Qed.

Lemma mergeMap_next_acc p m a st : acc (mergeMap_next p m a st) = acc st.
Proof. unfold mergeMap_next. by case_decide. Qed.

Lemma mergeMap_next_logged p m a st :
  logged (world (mergeMap_next p m a st)) = logged (world st).
Proof. unfold mergeMap_next. by case_decide. Qed.

Lemma mergeMap_next_exited p m a st :
  exited (world (mergeMap_next p m a st)) = exited (world st).
Proof. unfold mergeMap_next. by case_decide. Qed.

Lemma subscribe_snoc p m f a w :
  subscribe p m (f ++ [a]) w = mergeMap_next p m a (subscribe p m f w).
Proof. unfold subscribe. by rewrite foldl_snoc. Qed.

Lemma subscribe_pending p m f w : pending (subscribe p m f w) ≡ₚ f.
Proof.
  induction f as [|a f IH] using rev_ind; [done|].
  rewrite subscribe_snoc, mergeMap_next_pending, IH.
  apply Permutation_cons_append.
Qed.

Lemma subscribe_acc p m f w : acc (subscribe p m f w) = [].
Proof.
  induction f as [|a f IH] using rev_ind; [done|].
  by rewrite subscribe_snoc, mergeMap_next_acc.
Qed.

Lemma notifyComplete_acc p m l v i f st :
  acc (notifyComplete p m l v i f st) = acc st ++ [execProcess p f].
Proof.
  unfold notifyComplete. simpl. destruct (buffer st); [done|].
  by rewrite mergeMap_next_acc.
Qed.

Lemma notifyComplete_pending p m l v i f st :
  active st !! i = Some f →
  f :: pending (notifyComplete p m l v i f st) ≡ₚ pending st.
Proof.
  intros Hi. unfold notifyComplete. simpl.
  assert (pending st ≡ₚ f :: delete i (active st) ++ buffer st) as ->.
  { unfold pending. by rewrite (delete_Permutation _ _ _ Hi) at 1. }
  constructor. destruct (buffer st) as [|a rest]; [done|].
  rewrite mergeMap_next_pending. unfold pending. simpl.
  apply Permutation_middle.
Qed.

Lemma subscribe_accounted p m f w : accounted p f (subscribe p m f w).
Proof. unfold accounted. by rewrite subscribe_acc, subscribe_pending. Qed.

Lemma step_accounted p m l v f st st' :
  step p m l v st st' → accounted p f st → accounted p f st'.
Proof.
  intros [st0 i x Hi]. unfold accounted. intros <-.
  rewrite notifyComplete_acc, <- (notifyComplete_pending p m l v i x st0 Hi).
  rewrite fmap_cons, <- app_assoc. done.
Qed.

Lemma rtc_step_accounted p m l v f st st' :
  rtc (step p m l v) st st' → accounted p f st → accounted p f st'.
Proof. induction 1; eauto using step_accounted. Qed.

Lemma completed_pending st : completed st ↔ pending st = [].
Proof.
  unfold completed, pending. split; [by intros [-> ->]|].
  intros H. by apply app_eq_nil in H.
Qed.

Lemma mergeMap_next_bounded p m a st :
  bounded m st → bounded m (mergeMap_next p m a st).
Proof.
  intros [Hlen Hbuf]. unfold mergeMap_next, bounded.
  case_decide as Hm; simpl.
  - rewrite length_app. simpl. split; [lia|]. intros _ H.
    by apply app_eq_nil in H as [_ ?].
  - split; [done|]. intros H1 Ha. rewrite Ha in Hm. simpl in Hm. lia.
Qed.

Lemma subscribe_bounded p m f w : bounded m (subscribe p m f w).
Proof.
  induction f as [|a f IH] using rev_ind.
  - split; simpl; [lia|done].
  - rewrite subscribe_snoc. by apply mergeMap_next_bounded.
Qed.

Lemma step_bounded p m l v st st' :
  step p m l v st st' → bounded m st → bounded m st'.
Proof.
  intros [st0 i x Hi] [Hlen Hbuf]. unfold notifyComplete. simpl.
  assert (length (delete i (active st0)) < length (active st0))%nat as Hdel.
  { rewrite length_delete by eauto. apply lookup_lt_Some in Hi. lia. }
  destruct (buffer st0) as [|a rest] eqn:Hb.
  - split; simpl; [lia|done].
  - unfold mergeMap_next, bounded. simpl. case_decide as Hm; simpl.
    + rewrite length_app. simpl. split; [lia|]. intros _ H.
      by apply app_eq_nil in H as [_ ?].
    + lia.
Qed.

Lemma rtc_step_bounded p m l v st st' :
  rtc (step p m l v) st st' → bounded m st → bounded m st'.
Proof. induction 1; eauto using step_bounded. Qed.

(** With [1 ≤ m] a pool that has not completed can take a step. *)
Lemma step_progress p m l v st :
  (1 ≤ m)%Z → bounded m st → ¬ completed st →
  ∃ st', step p m l v st st'.
Proof.
  intros Hm [_ Hbuf] Hnc. destruct (active st) as [|x a] eqn:Ha.
  - destruct Hnc. split; [done|]. by apply Hbuf.
  - exists (notifyComplete p m l v 0 x st). constructor. by rewrite Ha.
Qed.

Lemma step_pending_length p m l v st st' :
  step p m l v st st' → length (pending st) = S (length (pending st')).
Proof.
  intros [st0 i x Hi].
  by rewrite <- (notifyComplete_pending p m l v i x st0 Hi).
Qed.

(** Every execution of the pool can be continued to completion. *)
Lemma pool_completes p m l v st :
  (1 ≤ m)%Z → bounded m st →
  ∃ st', rtc (step p m l v) st st' ∧ completed st'.
Proof.
  intros Hm. remember (length (pending st)) as n eqn:Hn.
  revert st Hn. induction n as [|n IH]; intros st Hn Hb.
  - exists st. split; [done|]. apply completed_pending.
    by apply length_zero_iff_nil.
  - destruct (step_progress p m l v st Hm Hb) as [st1 Hst].
    { rewrite completed_pending. intros E. by rewrite E in Hn. }
    destruct (IH st1) as (st' & Hrtc & Hc).
    + apply step_pending_length in Hst. lia.
    + by eapply step_bounded.
    + exists st'. split; [by eapply rtc_l|done].
Qed.

(** The number of steps taken is the number of results collected. *)
Lemma nsteps_acc_length p m l v n st st' :
  nsteps (step p m l v) n st st' → length (acc st') = (length (acc st) + n)%nat.
Proof.
  induction 1 as [|n x y z Hxy _ IH]; [lia|].
  destruct Hxy as [st0 i f Hi]. rewrite notifyComplete_acc, length_app in IH.
  simpl in IH. lia.
Qed.

(** Without a process to run ([m ≤ 0]) every file stays in the buffer and
    the pool never completes. *)
Lemma subscribe_no_parallelism p m f w :
  (m ≤ 0)%Z →
  subscribe p m f w = {| buffer := f; active := []; acc := []; world := w |}.
Proof.
  intros Hm. induction f as [|a f IH] using rev_ind; [done|].
  rewrite subscribe_snoc, IH. unfold mergeMap_next. simpl.
  by rewrite decide_False by lia.
Qed.

Lemma pool_stuck p m l v f w st :
  (m ≤ 0)%Z → f ≠ [] →
  rtc (step p m l v) (subscribe p m f w) st → ¬ completed st.
Proof.
  intros Hm Hf Hst. rewrite subscribe_no_parallelism in Hst by done.
  apply rtc_inv in Hst as [<-|(st1 & Hstep & _)].
  - by intros [_ ?].
  - by inversion Hstep as [st0 i x Hi].
Qed.

(** C5: whenever the pool has completed, the results collected are the
    results of the files, one for each file, whatever the processes
    returned; an execution takes at most one step per file; and with
    [1 ≤ m] every execution can be continued to completion. *)
Theorem runInParallel_one_result_per_file p m l v f w :
  let init := subscribe p m f w in
  (∀ st, rtc (step p m l v) init st → completed st →
         acc st ≡ₚ execProcess p <$> f ∧ filename <$> acc st ≡ₚ f)
  ∧ (∀ n st, nsteps (step p m l v) n init st → (n ≤ length f)%nat)
  ∧ ((1 ≤ m)%Z →
     ∀ st, rtc (step p m l v) init st →
           ∃ st', rtc (step p m l v) st st' ∧ completed st').
Proof.
  intros init. split_and!.
  - intros st Hst Hc.
    assert (accounted p f st) as Hacc.
    { eapply rtc_step_accounted; [done|]. apply subscribe_accounted. }
    unfold accounted in Hacc. apply completed_pending in Hc.
    rewrite Hc, app_nil_r in Hacc. split; [done|].
    rewrite Hacc, <- list_fmap_compose. by rewrite list_fmap_id.
  - intros n st Hn.
    pose proof (nsteps_acc_length _ _ _ _ _ _ _ Hn) as Hlen.
    assert (accounted p f st) as Hacc.
    { eapply rtc_step_accounted; [by eapply rtc_nsteps_2|].
      apply subscribe_accounted. }
    apply Permutation_length in Hacc.
    rewrite length_app, !length_fmap in Hacc.
    subst init. rewrite subscribe_acc in Hlen. simpl in Hlen. lia.
  - intros Hm st Hst. apply pool_completes; [done|].
    eapply rtc_step_bounded; [done|]. apply subscribe_bounded.
Qed.

Lemma runAll_exists f p m l v w : (1 ≤ m)%Z → ∃ w', runAll f p m l v w w'.
Proof.
  intros Hm.
  destruct (pool_completes p m l v
              (subscribe p m f (info l (messageForHeader f) w)) Hm)
    as (st & Hst & Hc); [apply subscribe_bounded|].
  eexists. by econstructor.
Qed.

Lemma runSchedule_rtc p m l v sched st :
  rtc (step p m l v) st (runSchedule p m l v sched st).
Proof.
  revert st. induction sched as [|k sched IH]; intros st; simpl; [done|].
  destruct (active st !! _) as [f|] eqn:Hi; [|done].
  eapply rtc_l; [by constructor|apply IH].
Qed.

Lemma runAllWith_runAll sched f p m l v w w' :
  runAllWith sched f p m l v w = Some w' → runAll f p m l v w w'.
Proof.
  unfold runAllWith. case_decide as Hc; [|done]. intros [= <-].
  econstructor; [apply runSchedule_rtc|done].
Qed.

Lemma failed_code (c : ChildProcess) :
  code c ≠ ExitCode 0 ↔ nonZeroExit c ∨ failedToSpawn c.
Proof.
  clear exec env.
  unfold nonZeroExit, failedToSpawn. destruct (code c) as [n|e].
  - split; [|naive_solver]. intros H. left. exists n. naive_solver.
  - naive_solver.
Qed.

Lemma exitStatus_spec (a : list ChildProcessAndFileName) :
  (exitStatus a = 1%Z ↔ ∃ b, b ∈ a ∧ code (child b) ≠ ExitCode 0)
  ∧ (exitStatus a = 0%Z ↔ ¬ ∃ b, b ∈ a ∧ code (child b) ≠ ExitCode 0).
Proof.
  unfold exitStatus.
  destruct (existsb _ a) eqn:E.
  - apply existsb_exists in E as (b & Hb & Hcode).
    apply list_elem_of_In in Hb. apply bool_decide_eq_true in Hcode.
    split; split; try done; naive_solver.
  - assert (¬ ∃ b, b ∈ a ∧ code (child b) ≠ ExitCode 0) as Hno.
    { intros (b & Hb & Hcode).
      apply not_true_iff_false in E. apply E, existsb_exists. exists b.
      split; [by apply list_elem_of_In|by apply bool_decide_eq_true]. }
    split; split; try done; naive_solver.
Qed.

Lemma runAll_exited f p m l v w w' :
  runAll f p m l v w w' →
  (∃ b, b ∈ f ∧ code (child (execProcess p b)) ≠ ExitCode 0)
  ∧ exited w' = Some 1%Z
  ∨ (¬ ∃ b, b ∈ f ∧ code (child (execProcess p b)) ≠ ExitCode 0)
    ∧ exited w' = Some 0%Z.
Proof.
  clear env.
  intros [st Hst Hc].
  assert (accounted p f st) as Hacc.
  { eapply rtc_step_accounted; [done|]. apply subscribe_accounted. }
  unfold accounted in Hacc. apply completed_pending in Hc.
  rewrite Hc, app_nil_r in Hacc.
  assert ((∃ b, b ∈ acc st ∧ code (child b) ≠ ExitCode 0)
          ↔ ∃ b, b ∈ f ∧ code (child (execProcess p b)) ≠ ExitCode 0) as Hiff.
  { setoid_rewrite Hacc. setoid_rewrite list_elem_of_fmap. naive_solver. }
  unfold summarize. simpl. destruct (exitStatus_spec (acc st)) as [H1 H0].
  unfold exitStatus in *. destruct (existsb _ (acc st)).
  - left. split; [|done]. apply Hiff, H1. done.
  - right. split; [|done]. rewrite <- Hiff. by apply H0.
Qed.

(** C4: with [1 ≤ m] a run on selected files completes, and whenever it
    completes the process exits with status 1 if the result of some file
    has a non-zero exit code or failed to spawn, and with status 0
    otherwise. *)
Theorem overall_status p fi wl bl m v w files w1 :
  (1 ≤ m)%Z →
  filesToRunOn fi wl bl w = (Next files, w1) →
  (∃ w', runProcessForEachFile p fi wl bl m v w w')
  ∧ ∀ w', runProcessForEachFile p fi wl bl m v w w' →
      (exited w' = Some 1%Z
       ↔ ∃ f, f ∈ files ∧ (nonZeroExit (child (execProcess p f))
                            ∨ failedToSpawn (child (execProcess p f))))
      ∧ (exited w' = Some 0%Z
         ↔ ¬ ∃ f, f ∈ files ∧ (nonZeroExit (child (execProcess p f))
                                ∨ failedToSpawn (child (execProcess p f)))).
Proof.
  intros Hm Hfiles. split.
  - destruct (decide (length files = 0%nat)) as [Hz|Hnz].
    + eexists. by eapply run_nothing.
    + destruct (runAll_exists files p m (createLogger v) v w1 Hm) as [w' Hw'].
      exists w'. by eapply run_all.
  - intros w' Hrun. setoid_rewrite <- failed_code.
    destruct Hrun as [w2 files' Hf Hlen|w2 files' w' Hf Hlen Hall|w2 e Hf];
      rewrite Hfiles in Hf; simplify_eq.
    + apply length_zero_iff_nil in Hlen as ->. simpl.
      split; split; try done; try naive_solver.
      * intros (f & Hf & _). by apply elem_of_nil in Hf.
      * intros _ (f & Hf & _). by apply elem_of_nil in Hf.
    + destruct (runAll_exited _ _ _ _ _ _ _ Hall) as [[He ->]|[He ->]];
        split; split; try done; naive_solver.
Qed.

(** C6, as the code has it: when the filtered set is empty the run
    completes, spawns no process beyond those of the selection, exits with
    status 0, and logs [No file to process] unless the verbosity is
    [Silent], in which case it logs nothing. *)
Theorem nothing_to_process p fi wl bl m v w w1 :
  filesToRunOn fi wl bl w = (Next [], w1) →
  (∃ w', runProcessForEachFile p fi wl bl m v w w')
  ∧ ∀ w', runProcessForEachFile p fi wl bl m v w w' →
      spawned w' = spawned w1
      ∧ (fi = AllInPwd → spawned w' = spawned w)
      ∧ exited w' = Some 0%Z
      ∧ logged w'
        = logged w1 ++ (if decide (v = Silent) then [] else [messageForNoFile]).
Proof.
  intros Hfiles. split.
  - eexists. by eapply run_nothing.
  - intros w' Hrun.
    destruct Hrun as [w2 files' Hf Hlen|w2 files' w' Hf Hlen Hall|w2 e Hf];
      rewrite Hfiles in Hf; simplify_eq.
    unfold nothingToRun, info, createLogger. simpl.
    split_and!.
    + by destruct v.
    + intros ->. unfold filesToRunOn in Hfiles. simpl in Hfiles.
      simplify_eq. by destruct v.
    + by destruct v.
    + destruct v; simpl; by rewrite ?app_nil_r.
Qed.

(** ** The selection *)

(** [targetBranch] looks at [STASH_PULL_REQUEST_BRANCH_DESTINATION] first,
    at [CHANGE_TARGET] next, and falls back to [origin/master]. *)
Lemma targetBranch_priority :
  let unset name := env name = None ∨ env name = Some [] in
  (∀ s, env (lit "STASH_PULL_REQUEST_BRANCH_DESTINATION") = Some s → s ≠ [] →
        targetBranch = lit "stash/" ++ s)
  ∧ (unset (lit "STASH_PULL_REQUEST_BRANCH_DESTINATION") →
     ∀ s, env (lit "CHANGE_TARGET") = Some s → s ≠ [] →
          targetBranch = lit "upstream/" ++ s)
  ∧ (unset (lit "STASH_PULL_REQUEST_BRANCH_DESTINATION") →
     unset (lit "CHANGE_TARGET") → targetBranch = lit "origin/master").
Proof.
  unfold targetBranch. split_and!.
  - intros s -> Hs. by destruct s.
  - intros [->| ->] s -> Hs; by destruct s.
  - by intros [->| ->] [->| ->].
Qed.

(** The set [modifiedSinceOriginMasterInGit] delivers is parsed from the
    two outputs put end to end. *)
Lemma modifiedSinceOriginMasterInGit_result w a b :
  execP_settle git_diff_target = Next a →
  execP_settle git_diff_staged = Next b →
  modifiedSinceOriginMasterInGit w
  = (Next (linesFromStdout (stdout a ++ stdout b)),
     spawn git_diff_staged (spawn git_diff_target w)).
Proof.
  intros Ha Hb. unfold modifiedSinceOriginMasterInGit, execP.
  by rewrite Ha, Hb.
Qed.

(** ** More on the pool: order of dispatch, saturation, the log *)

Lemma spawned_info l s w : spawned (info l s w) = spawned w.
Proof. unfold info. by destruct (enabled l). Qed.

Lemma exited_info l s w : exited (info l s w) = exited w.
Proof. unfold info. by destruct (enabled l). Qed.

Lemma logged_info l s w :
  logged (info l s w) = logged w ++ (if enabled l then [s] else []).
Proof. unfold info. destruct (enabled l); [done|]. by rewrite app_nil_r. Qed.

Lemma mergeMap_next_saturated p m a st :
  saturated m st → saturated m (mergeMap_next p m a st).
Proof.
  unfold saturated, mergeMap_next. intros Hsat. case_decide as Hm; simpl.
  - intros Hb. specialize (Hsat Hb). rewrite length_app. simpl. lia.
  - intros _. lia.
Qed.

Lemma saturated_room m st :
  saturated m st → (Z.of_nat (length (active st)) < m)%Z → buffer st = [].
Proof.
  unfold saturated. intros Hsat Hm. destruct (buffer st); [done|].
  specialize (Hsat ltac:(done)). lia.
Qed.

Lemma mergeMap_next_dispatched p m f w0 a st :
  saturated m st → dispatched p f w0 st →
  dispatched p (f ++ [a]) w0 (mergeMap_next p m a st).
Proof.
  intros Hsat (started & Hf & Hperm & Hsp). unfold mergeMap_next.
  case_decide as Hm.
  - pose proof (saturated_room m st Hsat Hm) as Hb.
    rewrite Hb, app_nil_r in Hf. subst f.
    exists (started ++ [a]). simpl. rewrite Hb. split_and!.
    + by rewrite app_nil_r.
    + by rewrite Hperm, app_assoc.
    + by rewrite Hsp, fmap_app, app_assoc.
  - exists started. simpl. split_and!; [|done..].
    by rewrite Hf, app_assoc.
Qed.

Lemma subscribe_dispatched p m f w :
  dispatched p f w (subscribe p m f w) ∧ saturated m (subscribe p m f w).
Proof.
  induction f as [|a f [IHd IHs]] using rev_ind.
  - split; [|by intros []]. exists []. simpl. by rewrite app_nil_r.
  - rewrite subscribe_snoc. split.
    + by apply mergeMap_next_dispatched.
    + by apply mergeMap_next_saturated.
Qed.

Lemma step_dispatched p m l v f w0 st st' :
  step p m l v st st' → bounded m st → saturated m st →
  dispatched p f w0 st →
  dispatched p f w0 st' ∧ saturated m st'.
Proof.
  intros [st0 i x Hi] [Hlen _] Hsat (started & Hf & Hperm & Hsp).
  assert (S (length (delete i (active st0))) = length (active st0)) as Hdel.
  { rewrite length_delete by eauto. apply lookup_lt_Some in Hi. lia. }
  assert (started ≡ₚ (filename <$> acc st0 ++ [execProcess p x])
                     ++ delete i (active st0)) as Hperm'.
  { rewrite Hperm, fmap_app. simpl. rewrite <- app_assoc. simpl.
    by rewrite (delete_Permutation _ _ _ Hi) at 1. }
  unfold notifyComplete. simpl. destruct (buffer st0) as [|a rest] eqn:Hb.
  - split; [|by intros []]. exists started. simpl.
    by rewrite spawned_info.
  - unfold mergeMap_next. simpl. rewrite decide_True by lia. split.
    + exists (started ++ [a]). simpl. split_and!.
      * by rewrite Hf, <- app_assoc.
      * by rewrite Hperm', app_assoc.
      * by rewrite spawned_info, Hsp, fmap_app, app_assoc.
    + unfold saturated in *. simpl. intros _. rewrite length_app. simpl.
      rewrite Hb in Hsat. specialize (Hsat ltac:(done)). lia.
Qed.

Lemma rtc_step_dispatched p m l v f w st :
  rtc (step p m l v) (subscribe p m f w) st →
  bounded m st ∧ saturated m st ∧ dispatched p f w st.
Proof.
  revert st. apply rtc_ind_r.
  - destruct (subscribe_dispatched p m f w). split_and!; [|done..].
    apply subscribe_bounded.
  - intros st st' _ Hstep (Hb & Hs & Hd). destruct (step_dispatched _ _ _ _ _ _ _ _ Hstep Hb Hs Hd).
    split_and!; [|done..]. by eapply step_bounded.
Qed.

Lemma subscribe_logged p m f w : logged (world (subscribe p m f w)) = logged w.
Proof.
  induction f as [|a f IH] using rev_ind; [done|].
  by rewrite subscribe_snoc, mergeMap_next_logged.
Qed.

Lemma notifyComplete_logged p m l v i f st :
  logged (world (notifyComplete p m l v i f st))
  = logged (world st) ++ (if enabled l then linesFor v [execProcess p f] else []).
Proof.
  unfold notifyComplete. simpl. destruct (buffer st).
  - simpl. by rewrite logged_info.
  - rewrite mergeMap_next_logged. simpl. by rewrite logged_info.
Qed.

Lemma rtc_step_logged p m l v f w st :
  rtc (step p m l v) (subscribe p m f w) st →
  logged (world st)
  = logged w ++ (if enabled l then linesFor v (acc st) else []).
Proof.
  revert st. apply rtc_ind_r.
  - rewrite subscribe_logged, subscribe_acc. unfold linesFor. simpl.
    destruct (enabled l); by rewrite app_nil_r.
  - intros st st' _ [st0 i x Hi] IH.
    rewrite notifyComplete_logged, notifyComplete_acc, IH. unfold linesFor.
    destruct (enabled l); [|by rewrite !app_nil_r].
    by rewrite fmap_app, app_assoc.
Qed.

(** X1: at most [max m 0] processes run at any time, and as long as files
    wait in the buffer exactly that many are running. *)
Theorem mergeMap_concurrency p m l v f w st :
  rtc (step p m l v) (subscribe p m f w) st →
  (Z.of_nat (length (active st)) ≤ Z.max m 0)%Z
  ∧ (buffer st ≠ [] → Z.of_nat (length (active st)) = Z.max m 0).
Proof.
  intros Hst. destruct (rtc_step_dispatched _ _ _ _ _ _ _ Hst)
    as ([Hlen _] & Hsat & _).
  split; [done|]. intros Hb. specialize (Hsat Hb). lia.
Qed.

(** X2: the processes are started in the order of the file list, one per
    file: the commands handed to [exec] are those of the first files, as
    many as have a result or are running, and at completion those of all
    the files, in order. *)
Theorem processes_spawned_in_order p m l v f w st :
  rtc (step p m l v) (subscribe p m f w) st →
  spawned (world st)
  = spawned w
    ++ (commandFor p <$> take (length (acc st) + length (active st)) f)
  ∧ (completed st → spawned (world st) = spawned w ++ (commandFor p <$> f)).
Proof.
  intros Hst. destruct (rtc_step_dispatched _ _ _ _ _ _ _ Hst)
    as (_ & _ & started & Hf & Hperm & Hsp).
  assert (length started = length (acc st) + length (active st))%nat as Hlen.
  { rewrite Hperm, length_app, length_fmap. done. }
  split.
  - by rewrite <- Hlen, Hf, take_app_length.
  - intros [_ Hb]. by rewrite Hsp, Hf, Hb, app_nil_r.
Qed.

Lemma mergeMap_next_pending_eq p m a st :
  saturated m st → pending (mergeMap_next p m a st) = pending st ++ [a].
Proof.
  intros Hsat. unfold mergeMap_next, pending. case_decide as Hm; simpl.
  - rewrite (saturated_room m st Hsat Hm). by rewrite !app_nil_r.
  - by rewrite app_assoc.
Qed.

Lemma subscribe_pending_eq p m f w : pending (subscribe p m f w) = f.
Proof.
  induction f as [|a f IH] using rev_ind; [done|].
  rewrite subscribe_snoc, mergeMap_next_pending_eq, IH; [done|].
  apply subscribe_dispatched.
Qed.

(** With one process at a time the results come in the order of the
    files. *)
Lemma sequential_invariant p l v f w st :
  rtc (step p 1 l v) (subscribe p 1 f w) st →
  f = (filename <$> acc st) ++ pending st
  ∧ acc st = execProcess p <$> (filename <$> acc st).
Proof.
  revert st. apply rtc_ind_r.
  - by rewrite subscribe_acc, subscribe_pending_eq.
  - intros st st' Hst Hstep [Hf Hacc].
    pose proof (rtc_step_bounded _ _ _ _ _ _ Hst (subscribe_bounded p 1 f w))
      as [Hlen _].
    destruct Hstep as [st0 i x Hi].
    destruct (active st0) as [|y [|z rest]] eqn:Ha; [done| |simpl in Hlen; lia].
    destruct i as [|i]; [|done]. injection Hi as ->.
    rewrite notifyComplete_acc, fmap_app. simpl. split.
    + rewrite Hf. unfold pending, notifyComplete. rewrite Ha. simpl.
      destruct (buffer st0) as [|a rest]; simpl.
      * by rewrite <- app_assoc.
      * unfold mergeMap_next. simpl. by rewrite <- app_assoc.
    + by rewrite fmap_app, <- Hacc.
Qed.

(** X3: with [maxParallel = 1] the results are collected in the order of
    the file list: at any time they are the results of the first files, and
    at completion the results of all files, in order. *)
Theorem sequential_results_in_file_order p l v f w st :
  rtc (step p 1 l v) (subscribe p 1 f w) st →
  acc st = execProcess p <$> take (length (acc st)) f
  ∧ (completed st → acc st = execProcess p <$> f).
Proof.
  intros Hst. destruct (sequential_invariant _ _ _ _ _ _ Hst) as [Hf Hacc].
  assert (take (length (acc st)) f = filename <$> acc st) as Htake.
  { rewrite Hf at 1. apply take_app_length'. by rewrite length_fmap. }
  split; [by rewrite Htake|].
  intros Hc. apply completed_pending in Hc.
  rewrite Hc, app_nil_r in Hf. by rewrite <- Hf in Hacc.
Qed.

(** ** The whole run *)

(** The selection changes the process only by the git commands it runs. *)
Lemma filesToRunOn_world fi wl bl w :
  spawned (filesToRunOn fi wl bl w).2
  = spawned w ++ selectionCommands targetBranch fi
  ∧ logged (filesToRunOn fi wl bl w).2 = logged w
  ∧ exited (filesToRunOn fi wl bl w).2 = exited w
  ∧ uncaught (filesToRunOn fi wl bl w).2 = uncaught w.
Proof.
  destruct fi; cbn; split_and!; try done.
  - by rewrite app_nil_r.
  - by rewrite <- app_assoc.
Qed.

Lemma execP_settle_Error c e :
  execP_settle c = Error e → error e = true ∧ is_Some (cb_error (exec c)).
Proof.
  unfold execP_settle. destruct (cb_error (exec c)); [|done].
  intros [= <-]. eauto.
Qed.

Lemma execP_settle_fails c :
  is_Some (cb_error (exec c)) → ∃ e, execP_settle c = Error e ∧ error e = true.
Proof. intros [x Hx]. unfold execP_settle. rewrite Hx. eauto. Qed.

(** The selection fails when one of its git commands fails. *)
Lemma filesToRunOn_fails fi wl bl w :
  (∃ c, c ∈ selectionCommands targetBranch fi ∧ is_Some (cb_error (exec c)))
  → ∃ e, (filesToRunOn fi wl bl w).1 = Error (ChildFailed e) ∧ error e = true.
Proof.
  intros (c & Hc & Hfail). destruct fi; cbn in Hc.
  - by apply elem_of_nil in Hc.
  - apply list_elem_of_singleton in Hc as ->.
    destruct (execP_settle_fails _ Hfail) as (e & He & Herr). exists e.
    unfold filesToRunOn. cbn. unfold git_ls_files. by rewrite He.
  - unfold filesToRunOn. cbn.
    destruct (execP_settle git_diff_target) as [a|ea] eqn:Ha.
    + apply elem_of_cons in Hc as [->|Hc].
      { destruct (execP_settle_fails _ Hfail) as (e & He & _).
        unfold git_diff_target in Ha. congruence. }
      apply list_elem_of_singleton in Hc as ->.
      destruct (execP_settle_fails _ Hfail) as (e & He & Herr). exists e.
      unfold git_diff_staged. by rewrite He.
    + exists ea. split; [done|]. by apply execP_settle_Error in Ha as [? _].
  - apply list_elem_of_singleton in Hc as ->.
    destruct (execP_settle_fails _ Hfail) as (e & He & Herr). exists e.
    unfold filesToRunOn. cbn. unfold git_diff_staged. by rewrite He.
Qed.

(** What a completed [runAll] leaves behind. *)
Lemma runAll_trace f p m l v w w' :
  runAll f p m l v w w' →
  ∃ results,
    results ≡ₚ execProcess p <$> f
    ∧ logged w'
      = logged w
        ++ (if enabled l
            then messageForHeader f :: linesFor v results
                 ++ [messageForSummary results v]
            else [])
    ∧ spawned w' = spawned w ++ (commandFor p <$> f)
    ∧ exited w' = Some (exitStatus results).
Proof.
  intros [st Hst Hc]. exists (acc st). split_and!.
  - pose proof (rtc_step_accounted _ _ _ _ f _ _ Hst
                  (subscribe_accounted _ _ _ _)) as Hacc.
    unfold accounted in Hacc. apply completed_pending in Hc.
    by rewrite Hc, app_nil_r in Hacc.
  - unfold summarize. simpl. rewrite logged_info.
    rewrite (rtc_step_logged _ _ _ _ _ _ _ Hst), logged_info.
    destruct (enabled l); [|by rewrite !app_nil_r].
    by rewrite <- !app_assoc.
  - unfold summarize. simpl. rewrite spawned_info.
    destruct (rtc_step_dispatched _ _ _ _ _ _ _ Hst)
      as (_ & _ & started & Hf & _ & Hsp).
    destruct Hc as [_ Hb]. rewrite Hb, app_nil_r in Hf.
    by rewrite Hsp, spawned_info, Hf.
  - done.
Qed.


(** X4: a run on a filtered set that is not empty leaves this behind: the
    git commands of the selection and then one command per file, in the
    order of the files; unless the logger is disabled, the header, one line
    per result in the order the processes settled, and the summary; and the
    exit status of those results. *)
Theorem run_outcome p fi wl bl m v w w' files w1 :
  filesToRunOn fi wl bl w = (Next files, w1) →
  files ≠ [] →
  runProcessForEachFile p fi wl bl m v w w' →
  ∃ results,
    results ≡ₚ execProcess p <$> files
    ∧ spawned w'
      = spawned w ++ selectionCommands targetBranch fi
        ++ (commandFor p <$> files)
    ∧ logged w'
      = logged w
        ++ (if decide (v = Silent) then []
            else messageForHeader files :: linesFor v results
                 ++ [messageForSummary results v])
    ∧ exited w' = Some (exitStatus results).
Proof.
  intros Hsel Hne Hrun.
  destruct (filesToRunOn_world fi wl bl w) as (Hsp & Hlog & _).
  rewrite Hsel in Hsp, Hlog. simpl in Hsp, Hlog.
  destruct Hrun as [w2 files' Hf Hlen|w2 files' w' Hf Hlen Hall|w2 e Hf];
    rewrite Hsel in Hf; simplify_eq.
  - by apply length_zero_iff_nil in Hlen.
  - destruct (runAll_trace _ _ _ _ _ _ _ Hall) as (results & Hp & Hl & Hs & He).
    exists results. split_and!; [done| | |done].
    + by rewrite Hs, Hsp, app_assoc.
    + rewrite Hl, Hlog. by destruct v.
Qed.

(** X5: a run only ever appends to the log, and under [Silent] it appends
    nothing, whether it finds no file, runs the process or fails in the
    selection. *)
Theorem run_log_grows_silent_writes_nothing p fi wl bl m v w w' :
  runProcessForEachFile p fi wl bl m v w w' →
  ∃ more, logged w' = logged w ++ more ∧ (v = Silent → more = []).
Proof.
  intros Hrun. destruct (filesToRunOn_world fi wl bl w) as (_ & Hlog & _).
  destruct Hrun as [w2 files' Hf Hlen|w2 files' w' Hf Hlen Hall|w2 e Hf];
    rewrite Hf in Hlog; simpl in Hlog.
  - unfold nothingToRun. simpl. rewrite logged_info, Hlog.
    eexists. split; [done|]. by intros ->.
  - destruct (runAll_trace _ _ _ _ _ _ _ Hall) as (results & _ & Hl & _).
    rewrite Hl, Hlog. eexists. split; [done|]. by intros ->.
  - simpl. rewrite Hlog. exists []. by rewrite app_nil_r.
Qed.

(** X6: when one of the git commands of the strategy fails, the run ends
    with the rejected [ChildProcess] as an uncaught error: no process is
    run for any file, nothing is logged and [process.exit] is not
    called. *)
Theorem selection_failure_aborts p fi wl bl m v w :
  (∃ c, c ∈ selectionCommands targetBranch fi ∧ is_Some (cb_error (exec c))) →
  ∃ e, error e = true
       ∧ (∃ w', runProcessForEachFile p fi wl bl m v w w')
       ∧ ∀ w', runProcessForEachFile p fi wl bl m v w w' →
           uncaught w' = Some (ChildFailed e)
           ∧ spawned w' = spawned w ++ selectionCommands targetBranch fi
           ∧ logged w' = logged w
           ∧ exited w' = exited w.
Proof.
  intros Hfail.
  destruct (filesToRunOn_fails fi wl bl w Hfail) as (e & He & Herr).
  destruct (filesToRunOn_world fi wl bl w) as (Hsp & Hlog & Hex & _).
  destruct (filesToRunOn fi wl bl w) as [r w1] eqn:Hsel.
  simpl in *. subst r. exists e. split_and!; [done| |].
  - eexists. by eapply run_error.
  - intros w' Hrun.
    destruct Hrun as [w2 files' Hf Hlen|w2 files' w' Hf Hlen Hall|w2 e' Hf];
      rewrite Hsel in Hf; simplify_eq.
    done.
Qed.

(** ** Splitting the output of git into lines *)

Lemma split_newlines_nonempty s : split_newlines s ≠ [].
Proof. destruct s; simpl; [done|]. repeat case_match; done. Qed.

(** Induction along the way [split_newlines] reads its argument: a line
    feed, a carriage return with its line feed, or a character of the
    current line. *)
Lemma split_newlines_ind (P : jsstring → list jsstring → Prop) :
  P [] [[]] →
  (∀ s ls, P s ls → P (LF :: s) ([] :: ls)) →
  (∀ s ls, P s ls → P (CR :: LF :: s) ([] :: ls)) →
  (∀ c s l ls, c ≠ LF → (c = CR → head s ≠ Some LF) →
               split_newlines s = l :: ls →
               P s (l :: ls) → P (c :: s) ((c :: l) :: ls)) →
  ∀ s, P s (split_newlines s).
Proof.
  intros Hnil Hlf Hcrlf Hext s.
  remember (length s) as n eqn:Hn. revert s Hn.
  induction n as [n IH] using lt_wf_ind. intros [|c s] Hn; [done|].
  simpl in Hn.
  assert (∀ l ls, c ≠ LF → (c = CR → head s ≠ Some LF) →
                  split_newlines s = l :: ls →
                  P (c :: s) ((c :: l) :: ls)) as Hext'.
  { intros l ls ? ? Hs. apply Hext; [done..|]. rewrite <- Hs.
    apply (IH (length s)); [lia|done]. }
  destruct (split_newlines s) as [|l ls] eqn:Hs;
    [by apply split_newlines_nonempty in Hs|].
  simpl. rewrite Hs. destruct (N.eqb_spec c LF) as [->|Hc].
  { rewrite <- Hs. apply Hlf, (IH (length s)); [lia|done]. }
  destruct (N.eqb_spec c CR) as [->|Hc'].
  - destruct s as [|d s']; [by apply Hext'|].
    destruct (N.eqb_spec d LF) as [->|Hd].
    + apply Hcrlf, (IH (length s')); [simpl in Hn; lia|done].
    + apply Hext'; [done| |done]. simpl. congruence.
  - by apply Hext'.
Qed.

(** X7: the output is cut at every line feed and nowhere else: there is
    one line more than there are line feeds, so at least one, and no line
    contains a line feed. *)
Theorem split_newlines_lines s :
  length (split_newlines s) = S (length (filter (λ c, c = LF) s))
  ∧ Forall (λ line, LF ∉ line) (split_newlines s).
Proof.
  apply (split_newlines_ind
           (λ s ls, length ls = S (length (filter (λ c, c = LF) s))
                    ∧ Forall (λ line, LF ∉ line) ls)).
  - split; [done|]. repeat constructor. apply not_elem_of_nil.
  - intros s' ls [Hlen Hall]. split.
    + rewrite filter_cons_True by done. simpl. by rewrite Hlen.
    + constructor; [apply not_elem_of_nil|done].
  - intros s' ls [Hlen Hall]. split.
    + rewrite filter_cons_False by done. rewrite filter_cons_True by done.
      simpl. by rewrite Hlen.
    + constructor; [apply not_elem_of_nil|done].
  - intros c s' l ls Hc _ _ [Hlen Hall]. split.
    + rewrite filter_cons_False by done. done.
    + apply Forall_cons in Hall as [Hl Hls]. constructor; [|done].
      rewrite not_elem_of_cons. done.
Qed.

Lemma split_newlines_app_line n rest :
  LF ∉ n → CR ∉ n →
  ∃ l ls, split_newlines rest = l :: ls
          ∧ split_newlines (n ++ rest) = (n ++ l) :: ls.
Proof.
  intros Hlf Hcr. induction n as [|c n IH].
  - destruct (split_newlines rest) as [|l ls] eqn:Hs;
      [by apply split_newlines_nonempty in Hs|]. by exists l, ls.
  - apply not_elem_of_cons in Hlf as [Hc Hlf].
    apply not_elem_of_cons in Hcr as [Hc' Hcr].
    destruct (IH Hlf Hcr) as (l & ls & Hs & Happ). exists l, ls.
    split; [done|]. simpl. rewrite Happ.
    destruct (N.eqb_spec c LF); [done|]. by destruct (N.eqb_spec c CR).
Qed.

Lemma split_newlines_join sep names :
  sep = [LF] ∨ sep = [CR; LF] →
  names ≠ [] →
  Forall (λ n, (LF ∉ n) ∧ (CR ∉ n)) names →
  split_newlines (joinLines sep names) = names.
Proof.
  intros Hsep Hne Hall. induction Hall as [|n names [Hlf Hcr] Hall IH]; [done|].
  destruct names as [|n' names].
  - simpl. destruct (split_newlines_app_line n [] Hlf Hcr)
      as (l & ls & Hs & Happ).
    simpl in Hs. simplify_eq. by rewrite !app_nil_r in Happ.
  - assert (n' :: names ≠ []) as Hne' by done. specialize (IH Hne').
    change (joinLines sep (n :: n' :: names))
      with (n ++ sep ++ joinLines sep (n' :: names)).
    destruct (split_newlines_app_line n (sep ++ joinLines sep (n' :: names))
                Hlf Hcr) as (l & ls & Hs & Happ).
    rewrite Happ.
    assert (split_newlines (sep ++ joinLines sep (n' :: names))
            = [] :: n' :: names) as Hsplit.
    { destruct Hsep as [-> | ->].
      - change ([LF] ++ ?x) with (LF :: x).
        change (split_newlines (LF :: ?x)) with ([] :: split_newlines x).
        by rewrite IH.
      - change ([CR; LF] ++ ?x) with (CR :: LF :: x).
        change (split_newlines (CR :: LF :: ?x)) with ([] :: split_newlines x).
        by rewrite IH. }
    rewrite Hsplit in Hs. simplify_eq. by rewrite app_nil_r.
Qed.

(** X8: parsing gives back the names git printed: for names without
    carriage return and line feed, put one per line with [\n] or with
    [\r\n] between them, [linesFromStdout] is the set of these names. *)
Theorem linesFromStdout_join sep names :
  sep = [LF] ∨ sep = [CR; LF] →
  names ≠ [] →
  Forall (λ n, (LF ∉ n) ∧ (CR ∉ n)) names →
  split_newlines (joinLines sep names) = names
  ∧ linesFromStdout (joinLines sep names) = list_to_set names.
Proof.
  intros Hsep Hne Hall. unfold linesFromStdout.
  by rewrite split_newlines_join.
Qed.

Lemma linesFromStdout_inhabited a : ∃ x, x ∈ linesFromStdout a.
Proof.
  clear exec env.
  unfold linesFromStdout. destruct (split_newlines a) as [|l ls] eqn:Hs;
    [by apply split_newlines_nonempty in Hs|].
  exists l. set_solver.
Qed.

(** X9: [linesFromStdout] never returns the empty set, so with empty
    pattern lists a git strategy never yields an empty file list: such a
    run never ends in [nothingToRun]. *)
Theorem git_selection_never_empty fi w files w1 :
  fi ≠ AllInPwd →
  filesToRunOn fi [] [] w = (Next files, w1) →
  files ≠ [] ∧ ∀ a, linesFromStdout a ≠ ∅.
Proof.
  intros Hfi Hsel. split.
  - assert (∃ a, files = sortFiles (linesFromStdout a)) as [a ->].
    { unfold filesToRunOn in Hsel. destruct fi; cbn in Hsel; [done|..].
      - destruct (execP_settle git_ls_files); simplify_eq/=. eauto.
      - destruct (execP_settle git_diff_target),
          (execP_settle git_diff_staged); simplify_eq/=. eauto.
      - destruct (execP_settle git_diff_staged); simplify_eq/=. eauto. }
    destruct (linesFromStdout_inhabited a) as [x Hx].
    apply elem_of_sortFiles in Hx. intros E. rewrite E in Hx.
    by apply elem_of_nil in Hx.
  - intros a E. destruct (linesFromStdout_inhabited a) as [x Hx].
    rewrite E in Hx. by apply elem_of_empty in Hx.
Qed.

(** *** From the output of git to the set of names *)

Lemma trimEnd_snoc_whitespace s c :
  isWhiteSpace c = true → trimEnd (s ++ [c]) = trimEnd s.
Proof.
  intros Hc. unfold trimEnd. rewrite rev_app_distr. simpl. by rewrite Hc.
Qed.

Lemma trimEnd_fixed s c : isWhiteSpace c = false → trimEnd (s ++ [c]) = s ++ [c].
Proof.
  intros Hc. unfold trimEnd. rewrite rev_app_distr. simpl. rewrite Hc.
  change (c :: rev s) with ([c] ++ rev s).
  by rewrite rev_app_distr, rev_involutive.
Qed.

(** A text that starts and ends with a character that is not white space
    is what [trim] leaves of it and a final line feed. *)
Lemma trim_final_newline c s d t :
  isWhiteSpace c = false → isWhiteSpace d = false →
  c :: s = t ++ [d] → trim ((c :: s) ++ [LF]) = c :: s.
Proof.
  intros Hc Hd Heq. unfold trim.
  change ((c :: s) ++ [LF]) with (c :: (s ++ [LF])).
  rewrite trimStart_fixed by done.
  change (c :: (s ++ [LF])) with ((c :: s) ++ [LF]).
  rewrite trimEnd_snoc_whitespace by done.
  rewrite Heq. by apply trimEnd_fixed.
Qed.

(** Names that are not empty and contain no white space. *)
Definition plainName (n : jsstring) : Prop :=
  n ≠ [] ∧ Forall (λ c, isWhiteSpace c = false) n.

Lemma plainName_no_newline n : plainName n → (LF ∉ n) ∧ (CR ∉ n).
Proof.
  intros [_ Hn]. rewrite Forall_forall in Hn.
  split; intros H; by apply Hn in H.
Qed.

Lemma joinLines_first sep n names :
  plainName n → ∃ c s, joinLines sep (n :: names) = c :: s
                       ∧ isWhiteSpace c = false.
Proof.
  intros [Hne Hn]. destruct n as [|c n]; [done|].
  apply Forall_cons in Hn as [Hc _].
  destruct names; simpl; eauto.
Qed.

Lemma joinLines_last sep names :
  names ≠ [] → Forall plainName names →
  ∃ t d, joinLines sep names = t ++ [d] ∧ isWhiteSpace d = false.
Proof.
  intros Hne Hall. induction Hall as [|n names [Hn Hws] Hall IH]; [done|].
  destruct names as [|n' names].
  - simpl. destruct n as [|c n _] using rev_ind; [done|].
    apply Forall_app in Hws as [_ Hc]. apply Forall_inv in Hc.
    by exists n, c.
  - destruct IH as (t & d & Ht & Hd); [done|].
    exists (n ++ sep ++ t), d. split; [|done].
    change (joinLines sep (n :: n' :: names))
      with (n ++ sep ++ joinLines sep (n' :: names)).
    by rewrite Ht, <- !app_assoc.
Qed.

Lemma parse_printed_names names :
  names ≠ [] → Forall plainName names →
  linesFromStdout (trim (joinLines [LF] names ++ [LF])) = list_to_set names.
Proof.
  intros Hne Hall. destruct names as [|n names]; [done|].
  apply Forall_cons in Hall as Hall'. destruct Hall' as [Hn _].
  destruct (joinLines_first [LF] n names Hn) as (c & s & Hj & Hc).
  destruct (joinLines_last [LF] (n :: names) Hne Hall) as (t & d & Ht & Hd).
  rewrite Hj. rewrite Hj in Ht.
  rewrite (trim_final_newline c s d t Hc Hd Ht). rewrite <- Hj.
  unfold linesFromStdout. rewrite (split_newlines_join [LF]); [done|by left|done|].
  eapply Forall_impl; [done|]. apply plainName_no_newline.
Qed.

(** X10: when git succeeds and prints names that are not empty and contain
    no white space, one per line, [IndexedInGit] and [StagedInGit] deliver
    exactly the set of these names. *)
Theorem git_names_recovered fi names w :
  fi = IndexedInGit ∨ fi = StagedInGit →
  names ≠ [] → Forall plainName names →
  (∀ c, c ∈ selectionCommands targetBranch fi →
        cb_error (exec c) = None
        ∧ cb_stdout (exec c) = joinLines [LF] names ++ [LF]) →
  (_filesToRunOn fi w).1 = Next (list_to_set names).
Proof.
  intros Hfi Hne Hall Hexec.
  destruct Hfi as [-> | ->]; cbn in Hexec |- *.
  - destruct (Hexec git_ls_files) as [Herr Hout]; [apply list_elem_of_here|].
    unfold execP_settle. rewrite Herr, Hout. simpl.
    by rewrite parse_printed_names.
  - destruct (Hexec git_diff_staged) as [Herr Hout]; [apply list_elem_of_here|].
    unfold execP_settle. rewrite Herr, Hout. simpl.
    by rewrite parse_printed_names.
Qed.

(** ** More on the pattern filter *)





(** ** More on the messages *)

Lemma existsb_failed (a : list ChildProcessAndFileName) :
  existsb (λ b, bool_decide (code (child b) ≠ ExitCode 0)) a = true
  ↔ filter (λ b, code (child b) ≠ ExitCode 0) a ≠ [].
Proof.
  induction a as [|b a IH]; [done|]. simpl. rewrite filter_cons.
  destruct (decide (code (child b) ≠ ExitCode 0)) as [Hb|Hb].
  - rewrite bool_decide_eq_true_2 by done. done.
  - rewrite bool_decide_eq_false_2 by done. done.
Qed.

(** X15: the summary and the exit status agree: the process exits with 0
    and the summary reads [n/n succeeded], or it exits with 1 and the
    summary reads [k/n failed] for the number [k > 0] of failed results. *)
Theorem summary_agrees_with_exit_status a v :
  exitStatus a = 0%Z
  ∧ messageForSummary a v
    = chalk green (LF :: lit "Summary: " ++ showNat (length a) ++ lit "/"
                   ++ showNat (length a) ++ lit " succeeded")
  ∨ exitStatus a = 1%Z
    ∧ ∃ k details,
        (0 < k ≤ length a)%nat
        ∧ k = length (filter (λ b, code (child b) ≠ ExitCode 0) a)
        ∧ messageForSummary a v
          = chalk red (LF :: lit "Summary: " ++ showNat k ++ lit "/"
                       ++ showNat (length a) ++ lit " failed" ++ [LF; LF]
                       ++ details).
Proof.
  unfold exitStatus, messageForSummary.
  pose proof (existsb_failed a) as Hex.
  destruct (existsb _ a).
  - right. split; [done|].
    destruct Hex as [Hne _]. specialize (Hne eq_refl).
    set (F := filter (λ b, code (child b) ≠ ExitCode 0) a) in *.
    exists (length F),
      (foldl (λ acc e, acc ++ messageForOneFile (filename e)
                (stdout (child e)) (code (child e)) v ++ [LF]) [] F).
    split_and!.
    + destruct F; [done|simpl; lia].
    + apply length_filter.
    + done.
    + rewrite decide_False; [done|]. by destruct F.
  - left. split; [done|].
    destruct (filter _ a) as [|b l]; [done|].
    destruct Hex as [_ Hne]. by specialize (Hne ltac:(done)).
Qed.

Lemma Exported_messageForOneFile_trimmed f s p v :
  trim s = s →
  Exported.messageForOneFile chalk f s p v = messageForOneFile f s p v.
Proof.
  intros Hs. unfold Exported.messageForOneFile, messageForOneFile.
  by rewrite Hs.
Qed.

(** X16: on the results of a run, whose output [execP] has trimmed, the
    revision without [trim] builds the same messages: the same line for a
    file and the same summary. *)
Theorem revisions_agree_on_results p f (files : list FileName) v :
  let r := execProcess p f in
  Exported.messageForOneFile chalk (filename r) (stdout (child r))
    (code (child r)) v
  = messageForOneFile (filename r) (stdout (child r)) (code (child r)) v
  ∧ Exported.messageForSummary chalk (execProcess p <$> files) v
    = messageForSummary (execProcess p <$> files) v.
Proof.
  intros r. split.
  - apply Exported_messageForOneFile_trimmed, execProcess_stdout_trimmed.
  - unfold Exported.messageForSummary, messageForSummary.
    case_decide; [done|]. do 2 f_equal.
    repeat (apply (f_equal2 app); [reflexivity|]).
    rewrite !foldl_append. f_equal. f_equal.
    apply Forall_fmap_ext_1, Forall_forall. intros e He.
    apply list_elem_of_filter in He as [_ He].
    apply list_elem_of_fmap in He as (x & -> & _).
    by rewrite Exported_messageForOneFile_trimmed
      by apply execProcess_stdout_trimmed.
Qed.

(** X17: the guard of the later [linesFromStdout] changes the result at
    the empty string only: it returns the empty set for the empty string
    and for no other argument, and the set of [src/qualite.ts] for every
    other argument. *)
Theorem Exported_linesFromStdout_guard a :
  (Exported.linesFromStdout a = ∅ ↔ a = [])
  ∧ (a ≠ [] → Exported.linesFromStdout a = linesFromStdout a).
Proof.
  unfold Exported.linesFromStdout. case_decide as Ha.
  - split; [done|]. by intros [].
  - split; [|done]. split; [|done]. intros E.
    destruct (linesFromStdout_inhabited a) as [x Hx].
    unfold linesFromStdout in Hx. rewrite E in Hx. by apply elem_of_empty in Hx.
Qed.

(** ** What [execP] delivers, and how the command is built *)

Lemma trim_ends s :
  (∀ c, head (trim s) = Some c → isWhiteSpace c = false)
  ∧ (∀ c, last (trim s) = Some c → isWhiteSpace c = false).
Proof.
  unfold trim. destruct (trimStart_head s) as [->|(c & s' & -> & Hc)];
    [by split|].
  split.
  - destruct (trimEnd_cons c s' Hc) as [t ->]. simpl. by intros ? [= <-].
  - unfold trimEnd. intros d.
    destruct (trimStart_head (rev (c :: s'))) as [->|(e & t & -> & He)];
      [done|].
    simpl. rewrite last_snoc. by intros [= <-].
Qed.

(** X18: whatever the process printed, and whether it failed or not, the
    [stdout] and [stderr] of the result of [execProcess] neither start nor
    end with white space, and trimming them again changes nothing. *)
Theorem execProcess_output_trimmed p f :
  let r := child (execProcess p f) in
  trim (stdout r) = stdout r
  ∧ trim (stderr r) = stderr r
  ∧ (∀ c, head (stdout r) = Some c ∨ last (stdout r) = Some c
          ∨ head (stderr r) = Some c ∨ last (stderr r) = Some c →
          isWhiteSpace c = false).
Proof.
  intros r. subst r. unfold execProcess, execP_settle. simpl.
  destruct (cb_error _); simpl; (split_and!; [apply trim_idem..|]);
    (intros c [H|[H|[H|H]]];
     [by eapply (proj1 (trim_ends _))|by eapply (proj2 (trim_ends _))
     |by eapply (proj1 (trim_ends _))|by eapply (proj2 (trim_ends _))]).
Qed.

(** X19: the file name is put into the shell command as it is, without
    quotes: a name with a space in it gives the command of a process with
    one more argument, and so the same result. *)
Theorem commandFor_unquoted p a b :
  commandFor p (a ++ lit " " ++ b) = commandFor (p ++ lit " " ++ a) b
  ∧ child (execProcess p (a ++ lit " " ++ b))
    = child (execProcess (p ++ lit " " ++ a) b).
Proof.
  assert (commandFor p (a ++ lit " " ++ b)
          = commandFor (p ++ lit " " ++ a) b) as H.
  { unfold commandFor. by rewrite <- !app_assoc. }
  split; [done|]. unfold execProcess. cbn [child]. by rewrite H.
Qed.

(** ** Runs that do not complete, and runs that differ in their schedule *)

(** X21: with [maxParallel ≤ 0] and at least one file, no process is ever
    started and the pool never completes: [runAll] writes the header and
    then neither a summary nor an exit status. *)
Theorem no_parallelism_no_outcome f p m l v w :
  (m ≤ 0)%Z → f ≠ [] →
  (∀ w', ¬ runAll f p m l v w w')
  ∧ ∀ st, rtc (step p m l v) (subscribe p m f (info l (messageForHeader f) w)) st →
          active st = [] ∧ buffer st = f ∧ acc st = []
          ∧ spawned (world st) = spawned w ∧ exited (world st) = exited w.
Proof.
  intros Hm Hf. split.
  - intros w' [st Hst Hc]. by eapply pool_stuck.
  - intros st Hst. rewrite subscribe_no_parallelism in Hst by done.
    apply rtc_inv in Hst as [<-|(st1 & Hstep & _)].
    + simpl. by rewrite spawned_info, exited_info.
    + by inversion Hstep as [st0 i x Hi].
Qed.

Lemma exitStatus_Permutation (a b : list ChildProcessAndFileName) :
  a ≡ₚ b → exitStatus a = exitStatus b.
Proof.
  intros Hp. destruct (exitStatus_spec a) as [Ha1 Ha0].
  destruct (exitStatus_spec b) as [Hb1 Hb0].
  assert ((∃ x, x ∈ a ∧ code (child x) ≠ ExitCode 0)
          ↔ ∃ x, x ∈ b ∧ code (child x) ≠ ExitCode 0) as Hiff
    by (by setoid_rewrite Hp).
  unfold exitStatus in *.
  destruct (existsb _ a), (existsb _ b); try done.
  - symmetry. apply Hb1, Hiff, Ha1. done.
  - apply Ha1, Hiff, Hb1. done.
Qed.

(** X22: the order in which the processes settle changes neither the exit
    status nor the commands run, and it leaves the log with the same
    number of lines, the same header first: two outcomes of the same call
    of [runAll] agree on these. *)
Theorem runAll_schedule_independent f p m l v w w1 w2 :
  runAll f p m l v w w1 → runAll f p m l v w w2 →
  exited w1 = exited w2
  ∧ spawned w1 = spawned w2
  ∧ length (logged w1) = length (logged w2)
  ∧ (enabled l = true →
     logged w1 !! length (logged w) = Some (messageForHeader f)
     ∧ logged w2 !! length (logged w) = Some (messageForHeader f)).
Proof.
  intros H1 H2.
  destruct (runAll_trace _ _ _ _ _ _ _ H1) as (r1 & Hp1 & Hl1 & Hs1 & He1).
  destruct (runAll_trace _ _ _ _ _ _ _ H2) as (r2 & Hp2 & Hl2 & Hs2 & He2).
  assert (r1 ≡ₚ r2) as Hp by (by rewrite Hp1, Hp2).
  split_and!.
  - rewrite He1, He2. f_equal. by apply exitStatus_Permutation.
  - by rewrite Hs1, Hs2.
  - rewrite Hl1, Hl2, !length_app. destruct (enabled l); [|done].
    simpl. unfold linesFor. rewrite !length_app, !length_fmap.
    by rewrite (Permutation_length Hp).
  - intros Hen. rewrite Hl1, Hl2, Hen.
    by rewrite !list_lookup_middle.
Qed.

(** X23: the target branch is always one of [origin/master],
    [stash/<v>] and [upstream/<v>] for a value [v] of the environment that
    is not empty; [STASH_PULL_REQUEST_BRANCH_DESTINATION] wins whatever
    [CHANGE_TARGET] holds, and a variable set to the empty string counts
    as not set. *)
Theorem targetBranch_resolution :
  (targetBranch = lit "origin/master"
   ∨ (∃ v, v ≠ [] ∧ env (lit "STASH_PULL_REQUEST_BRANCH_DESTINATION") = Some v
           ∧ targetBranch = lit "stash/" ++ v)
   ∨ (∃ v, v ≠ [] ∧ env (lit "CHANGE_TARGET") = Some v
           ∧ targetBranch = lit "upstream/" ++ v))
  ∧ (∀ v, env (lit "STASH_PULL_REQUEST_BRANCH_DESTINATION") = Some v → v ≠ [] →
          targetBranch = lit "stash/" ++ v)
  ∧ (env (lit "STASH_PULL_REQUEST_BRANCH_DESTINATION") = Some [] →
     (∀ v, env (lit "CHANGE_TARGET") = Some v → v ≠ [] →
           targetBranch = lit "upstream/" ++ v)
     ∧ (env (lit "CHANGE_TARGET") = None → targetBranch = lit "origin/master")).
Proof.
  unfold targetBranch. split_and!.
  - destruct (env (lit "STASH_PULL_REQUEST_BRANCH_DESTINATION"))
      as [[|c s]|] eqn:Hs;
      [| right; left; by exists (c :: s) |];
      (destruct (env (lit "CHANGE_TARGET")) as [[|d t]|] eqn:Hc;
       [by left| right; right; by exists (d :: t) |by left]).
  - intros v -> Hv. by destruct v.
  - intros ->. split.
    + intros v -> Hv. by destruct v.
    + by intros ->.
Qed.

(** ** The summary in the log *)

(** C8, as the code has it: with [1 ≤ m] the run of the files completes,
    and whenever it has completed, the summary of the results collected
    reads [<successCount>/<totalCount> succeeded] when none failed, and
    [<failedCount>/<totalCount> failed] followed by the line of every
    failed file with its output when some failed, the same at every
    verbosity; this summary is the last line logged unless the verbosity is
    [Silent], under which the run logs nothing. *)
Theorem summary_emitted_unless_silent f p m v w :
  (1 ≤ m)%Z →
  (∃ w', runAll f p m (createLogger v) v w w')
  ∧ ∀ w', runAll f p m (createLogger v) v w w' →
      ∃ results,
        results ≡ₚ execProcess p <$> f
        ∧ (filter (λ a, code (child a) ≠ ExitCode 0) results = [] →
           messageForSummary results v
           = chalk green
               (LF :: lit "Summary: "
                ++ showNat (length (filter (λ a, code (child a) = ExitCode 0)
                                      results))
                ++ lit "/" ++ showNat (length results) ++ lit " succeeded"))
        ∧ (filter (λ a, code (child a) ≠ ExitCode 0) results ≠ [] →
           messageForSummary results v
           = chalk red
               (LF :: lit "Summary: "
                ++ showNat (length (filter (λ a, code (child a) ≠ ExitCode 0)
                                      results))
                ++ lit "/" ++ showNat (length results) ++ lit " failed"
                ++ [LF; LF]
                ++ concat ((λ e, messageForOneFile (filename e)
                                   (stdout (child e)) (code (child e))
                                   LogEverything ++ [LF])
                           <$> filter (λ a, code (child a) ≠ ExitCode 0)
                                 results)))
        ∧ (v ≠ Silent → last (logged w') = Some (messageForSummary results v))
        ∧ (v = Silent → logged w' = logged w).
Proof.
  intros Hm. split; [by apply runAll_exists|]. intros w' Hrun.
  destruct (runAll_trace _ _ _ _ _ _ _ Hrun) as (results & Hp & Hl & _).
  exists results. destruct (messageForSummary_spec results v) as [Hok Hko].
  split_and!; [done..| |].
  - intros Hv. rewrite Hl. simpl. rewrite bool_decide_eq_true_2 by done.
    rewrite app_comm_cons, app_assoc. apply last_snoc.
  - intros ->. rewrite Hl. simpl. by rewrite app_nil_r.
Qed.

(** X24: when the listing of the directory fails under [AllInPwd], the run
    ends with the error of the listing as an uncaught error: no command is
    run, nothing is logged and [process.exit] is not called. *)
Theorem listing_failure_aborts p wl bl m v w err :
  recursive_cwd = Error err →
  (∃ w', runProcessForEachFile p AllInPwd wl bl m v w w')
  ∧ ∀ w', runProcessForEachFile p AllInPwd wl bl m v w w' →
      uncaught w' = Some (ListingFailed err)
      ∧ spawned w' = spawned w
      ∧ logged w' = logged w
      ∧ exited w' = exited w.
Proof.
  intros Herr.
  assert (filesToRunOn AllInPwd wl bl w = (Error (ListingFailed err), w))
    as Hsel.
  { unfold filesToRunOn. cbn. by rewrite Herr. }
  split.
  - eexists. by eapply run_error.
  - intros w' Hrun.
    destruct Hrun as [w2 files' Hf Hlen|w2 files' w' Hf Hlen Hall|w2 e' Hf];
      rewrite Hsel in Hf; simplify_eq.
    done.
Qed.

End Qualite.

(** ** Scenarios *)

(** Whitelist [/\.json$/], blacklist [/^pack/]. *)
Example patternFilter_json_not_pack :
  patternFilter Regex.RegExp Regex.test [json_at_end] [pack_at_start]
    {[ lit "a.json"; lit "pack/b.json"; lit "c.ts" ]}
  = [lit "a.json"].
Proof. by vm_compute. Qed.

(** C1, on [src/qualite.ts]: the empty output parses to the set whose only
    element is the empty string, and this is the set each of the three git
    strategies delivers when git prints nothing; the revision that tests
    for the empty string delivers the empty set. *)
Theorem linesFromStdout_empty_stdout
    (env : jsstring → option jsstring)
    (cwd : Observable NodeError (list FileName)) (w : World) :
  linesFromStdout [] = {[ [] ]}
  ∧ (_filesToRunOn quietExec env cwd IndexedInGit w).1 = Next {[ [] ]}
  ∧ (_filesToRunOn quietExec env cwd StagedInGit w).1 = Next {[ [] ]}
  ∧ (_filesToRunOn quietExec env cwd ModifiedSinceOriginMasterInGit w).1
    = Next {[ [] ]}
  ∧ Exported.linesFromStdout [] = ∅.
Proof.
  assert (linesFromStdout [] = {[ [] ]}) as H.
  { unfold linesFromStdout. simpl. apply set_eq. set_solver. }
  split_and!; try done.
Qed.

(** An empty output of git under [StagedInGit]: the filtered set is the
    empty file name alone, so the run does not stop at [nothingToRun] but
    runs the process on the empty file name. *)
Example empty_stdout_runs_process :
  filesToRunOn quietExec Regex.RegExp Regex.test noEnv (Next []) StagedInGit [] []
    initialWorld
  = (Next [[]],
     spawn (lit "git --no-pager diff --name-only --diff-filter=AM --staged")
       initialWorld)
  ∧ (∀ w, runProcessForEachFile quietExec plainChalk Regex.RegExp Regex.test
            noEnv (Next []) (lit "lint") StagedInGit [] [] 1 LogErrors initialWorld w →
          spawned w
          = [lit "git --no-pager diff --name-only --diff-filter=AM --staged";
             lit "lint  2>&1"]
          ∧ logged w
            = [lit "1 files to process:" ++ [LF]; lit "  " ++ [10003] ++ lit " ";
               LF :: lit "Summary: 1/1 succeeded"]).
Proof.
  assert (filesToRunOn quietExec Regex.RegExp Regex.test noEnv (Next []) StagedInGit
            [] [] initialWorld
          = (Next [[]],
             spawn (lit "git --no-pager diff --name-only --diff-filter=AM --staged")
               initialWorld)) as Hsel by (by vm_compute).
  split; [done|]. intros w Hrun.
  destruct Hrun as [w1 files Hf Hlen|w1 files w Hf Hlen Hall|w1 e Hf];
    rewrite Hsel in Hf; simplify_eq.
  destruct Hall as [st Hst Hc].
  apply rtc_inv in Hst as [<-|(st1 & Hstep & Hst)].
  { vm_compute in Hc. by destruct Hc. }
  inversion Hstep as [st0 i f Hi]; subst; clear Hstep. vm_compute in Hi.
  destruct i as [|i]; [|done]. injection Hi as <-.
  apply rtc_inv in Hst as [<-|(st2 & Hstep & _)]; [by vm_compute|].
  inversion Hstep as [st0 i f Hi]; subst. vm_compute in Hi. by destruct i.
Qed.

(** C2, on the code: with [a.ts] changed on the branch and [b.ts] staged,
    the strategy delivers the single name [a.tsb.ts], which is not the
    union of the two parsed sets; the two commands compare with
    [origin/master] and with the staging area. *)
Theorem modifiedSince_concatenates_outputs :
  modifiedSinceOriginMasterInGit twoDiffsExec noEnv initialWorld
  = (Next {[ lit "a.tsb.ts" ]},
     spawn (lit "git --no-pager diff --name-only --diff-filter=AM --staged")
       (spawn (lit "git --no-pager diff --name-only --diff-filter=AM origin/master...HEAD")
          initialWorld))
  ∧ linesFromStdout (lit "a.ts") ∪ linesFromStdout (lit "b.ts")
    = {[ lit "a.ts"; lit "b.ts" ]}
  ∧ lit "a.ts" ∉ ({[ lit "a.tsb.ts" ]} : gset jsstring).
Proof.
  split_and!.
  - by vm_compute.
  - by vm_compute.
  - rewrite elem_of_singleton. by vm_compute.
Qed.

(** Two files, [lint] rejects [b.txt]: the lines logged under [LogErrors]
    when [a.txt] settles first, and the exit status. *)
Example run_two_files_one_failure :
  ∃ w, runAllWith lintExec plainChalk [0%nat; 0%nat] [lit "a.txt"; lit "b.txt"]
         (lit "lint") 2 (createLogger LogErrors) LogErrors initialWorld = Some w
       ∧ spawned w = [lit "lint a.txt 2>&1"; lit "lint b.txt 2>&1"]
       ∧ logged w
         = [lit "2 files to process:" ++ [LF];
            lit "  " ++ [10003] ++ lit " a.txt";
            lit "  " ++ [10007] ++ lit " b.txt (exit code: 1)" ++ [LF]
            ++ lit "bad syntax";
            LF :: lit "Summary: 1/2 failed" ++ [LF; LF]
            ++ lit "  " ++ [10007] ++ lit " b.txt (exit code: 1)" ++ [LF]
            ++ lit "bad syntax" ++ [LF]]
       ∧ exited w = Some 1%Z.
Proof. eexists. split; [by vm_compute|]. by vm_compute. Qed.

(** ** Instances of the theorems *)


Lemma overall_status_witness :
  ∃ w', runProcessForEachFile lintExec plainChalk Regex.RegExp Regex.test noEnv
          (Next [lit "a.txt"; lit "b.txt"]) (lit "lint") AllInPwd [] [] 2 LogErrors
          initialWorld w'
        ∧ exited w' = Some 1%Z.
Proof.
  destruct (overall_status lintExec plainChalk Regex.RegExp Regex.test noEnv
              (Next [lit "a.txt"; lit "b.txt"]) (lit "lint") AllInPwd [] [] 2
              LogErrors initialWorld [lit "a.txt"; lit "b.txt"] initialWorld)
    as [[w' Hw'] Hall]; [lia|by vm_compute|].
  exists w'. split; [done|]. apply (Hall w' Hw').
  exists (lit "b.txt"). split; [set_solver|].
  left. exists 1%Z. split; [by vm_compute|lia].
Defined.

Lemma runInParallel_one_result_per_file_witness :
  ∃ st, rtc (step lintExec plainChalk (lit "lint") 2 (createLogger LogErrors)
               LogErrors)
          (subscribe (lit "lint") 2 [lit "a.txt"; lit "b.txt"] initialWorld) st
        ∧ completed st
        ∧ filename <$> acc st ≡ₚ [lit "a.txt"; lit "b.txt"].
Proof.
  destruct (runInParallel_one_result_per_file lintExec plainChalk (lit "lint")
              2 (createLogger LogErrors) LogErrors [lit "a.txt"; lit "b.txt"]
              initialWorld) as (Hperm & _ & Hex).
  destruct (Hex ltac:(lia) _ (rtc_refl _ _)) as (st & Hst & Hc).
  exists st. split_and!; [done..|]. by apply Hperm.
Defined.

Lemma nothing_to_process_witness :
  ∃ w', runProcessForEachFile quietExec plainChalk Regex.RegExp Regex.test noEnv
          (Next []) (lit "lint") AllInPwd [] [] 2 LogErrors initialWorld w'
        ∧ spawned w' = [] ∧ exited w' = Some 0%Z
        ∧ logged w' = [lit "No file to process"].
Proof.
  destruct (nothing_to_process quietExec plainChalk Regex.RegExp Regex.test
              noEnv (Next []) (lit "lint") AllInPwd [] [] 2 LogErrors initialWorld
              initialWorld) as [[w' Hw'] Hall]; [by vm_compute|].
  exists w'. split; [done|].
  destruct (Hall w' Hw') as (Hs & _ & He & Hl). by rewrite Hs, He, Hl.
Defined.

(** C6 as stated fails under [Silent]: the filtered set is empty, the
    process exits with status 0, and nothing is logged. *)
Lemma nothing_to_process_silent_counterexample :
  filesToRunOn quietExec Regex.RegExp Regex.test noEnv (Next []) AllInPwd [] []
    initialWorld = (Next [], initialWorld)
  ∧ ∃ w', runProcessForEachFile quietExec plainChalk Regex.RegExp Regex.test
            noEnv (Next []) (lit "lint") AllInPwd [] [] 2 Silent initialWorld w'
          ∧ exited w' = Some 0%Z
          ∧ logged w' = []
          ∧ messageForNoFile plainChalk ∉ logged w'.
Proof.
  split; [by vm_compute|]. eexists. split.
  - eapply run_nothing; [by vm_compute|done].
  - split_and!; [done..|]. apply not_elem_of_nil.
Qed.

Lemma messageForOneFile_rendering_witness :
  messageForOneFile plainChalk (lit "b.txt") (lit "bad syntax") (ExitCode 1)
    Silent
  = lit "  " ++ [10007] ++ lit " b.txt (exit code: 1)" ++ [LF]
    ++ lit "bad syntax".
Proof.
  generalize (proj2 (messageForOneFile_rendering lintExec plainChalk
                       (lit "lint") (lit "b.txt") Silent)).
  vm_compute. intros H. apply H. discriminate.
Defined.

Lemma messageForSummary_spec_witness :
  messageForSummary plainChalk
    [execProcess lintExec (lit "lint") (lit "a.txt");
     execProcess lintExec (lit "lint") (lit "b.txt")] LogErrors
  = LF :: lit "Summary: 1/2 failed" ++ [LF; LF]
    ++ lit "  " ++ [10007] ++ lit " b.txt (exit code: 1)" ++ [LF]
    ++ lit "bad syntax" ++ [LF].
Proof.
  generalize (proj2 (messageForSummary_spec plainChalk
                       [execProcess lintExec (lit "lint") (lit "a.txt");
                        execProcess lintExec (lit "lint") (lit "b.txt")]
                       LogErrors)).
  vm_compute. intros H. apply H. discriminate.
Defined.

Lemma messageForOneFile_trims_witness :
  messageForOneFile plainChalk (lit "b.txt") [32; 9; LF] (ExitCode 2)
    LogEverything
  = lit "  " ++ [10007] ++ lit " b.txt (exit code: 2)".
Proof.
  destruct (messageForOneFile_trims plainChalk (lit "b.txt") [32; 9; LF]
              (ExitCode 2) LogEverything) as (_ & _ & H).
  rewrite H; reflexivity.
Defined.

(** ** The first revision: folding the exit codes *)

Lemma reduceCodes_zeros (acc : ProcessCode) (post : list ProcessCode) :
  Forall (λ e, e = ExitCode 0) post →
  foldl (λ acc e, if decide (e ≠ ExitCode 0) then e else acc) acc post = acc.
Proof.
  intros Hpost. revert acc. induction Hpost as [|e post -> _ IH]; intros acc;
    [done|].
  simpl. by rewrite IH.
Qed.

(** X20: in the first revision the status the process exits with is the
    code of the last file to fail, in the order the processes settled; it
    is 0 when no file failed, and nothing is delivered for no file. *)
Theorem reduceCodes_last_failure (codes : list ProcessCode) :
  (Batches.reduceCodes codes = None ↔ codes = [])
  ∧ (∀ pre c post,
       codes = pre ++ c :: post → c ≠ ExitCode 0 →
       Forall (λ e, e = ExitCode 0) post →
       Batches.reduceCodes codes = Some c)
  ∧ (codes ≠ [] → Forall (λ e, e = ExitCode 0) codes →
     Batches.reduceCodes codes = Some (ExitCode 0)).
Proof.
  split_and!.
  - by destruct codes.
  - intros pre c post -> Hc Hpost. destruct pre as [|d pre]; simpl.
    + by rewrite reduceCodes_zeros.
    + rewrite foldl_app. simpl. rewrite decide_True by done.
      by rewrite reduceCodes_zeros.
  - intros Hne Hall. destruct codes as [|c codes]; [done|].
    apply Forall_cons in Hall as [-> Hall]. simpl.
    by rewrite reduceCodes_zeros.
Qed.

(** ** The tests of the repository *)

Definition mockFile (c : ProcessCode) : ChildProcessAndFileName :=
  {| child := {| code := c; stdout := lit "line1"; stderr := [];
                 error := false |};
     filename := lit "file1" |}.

Example test_stdout_is_empty chalk :
  Exported.messageForOneFile chalk (lit "file1") [] (ExitCode 0) LogEverything
  = chalk green (lit "  " ++ [10003] ++ lit " file1").
Proof. reflexivity. Qed.

Example test_stdout_is_single_line chalk :
  Exported.messageForOneFile chalk (lit "file1") (lit "line1") (ExitCode 0)
    LogEverything
  = chalk green (lit "  " ++ [10003] ++ lit " file1" ++ [LF] ++ lit "line1").
Proof. reflexivity. Qed.

Example test_stdout_is_3_lines chalk :
  Exported.messageForOneFile chalk (lit "file1")
    (lit "line1" ++ [LF] ++ lit "line2" ++ [LF] ++ lit "line3") (ExitCode 0)
    LogEverything
  = chalk green (lit "  " ++ [10003] ++ lit " file1" ++ [LF] ++ lit "line1"
                 ++ [LF] ++ lit "line2" ++ [LF] ++ lit "line3").
Proof. reflexivity. Qed.

Example test_code_is_1 chalk :
  Exported.messageForOneFile chalk (lit "file1") (lit "line1") (ExitCode 1)
    LogEverything
  = chalk red (lit "  " ++ [10007] ++ lit " file1 (exit code: 1)" ++ [LF]
               ++ lit "line1").
Proof. reflexivity. Qed.

Example test_code_is_0_and_LogErrors chalk :
  Exported.messageForOneFile chalk (lit "file1") (lit "line1") (ExitCode 0)
    LogErrors
  = chalk green (lit "  " ++ [10003] ++ lit " file1").
Proof. reflexivity. Qed.

Example test_summary_1_file chalk :
  Exported.messageForSummary chalk [mockFile (ExitCode 0)] LogEverything
  = chalk green (LF :: lit "Summary: 1/1 succeeded").
Proof. reflexivity. Qed.

Example test_summary_3_files chalk :
  Exported.messageForSummary chalk
    [mockFile (ExitCode 0); mockFile (ExitCode 0); mockFile (ExitCode 0)]
    LogEverything
  = chalk green (LF :: lit "Summary: 3/3 succeeded").
Proof. reflexivity. Qed.

(** The header of the later revision puts [file] in the plural. *)
Example header_singular_and_plural :
  Exported.messageForHeader [lit "a.txt"] = lit "1 file to process:" ++ [LF]
  ∧ Exported.messageForHeader [lit "a.txt"; lit "b.txt"]
    = lit "2 files to process:" ++ [LF]
  ∧ messageForHeader [lit "a.txt"] = lit "1 files to process:" ++ [LF].
Proof. by vm_compute. Qed.

(** ** Instances of the further theorems *)

(** The pool of three files under [lint], after the settlements of a
    schedule. *)
Definition lintPool (m : Z) (sched : list nat) : Pool :=
  runSchedule lintExec plainChalk (lit "lint") m (createLogger LogErrors)
    LogErrors sched
    (subscribe (lit "lint") m [lit "a.txt"; lit "b.txt"; lit "c.txt"]
       initialWorld).

Lemma lintPool_reachable m sched :
  rtc (step lintExec plainChalk (lit "lint") m (createLogger LogErrors)
         LogErrors)
    (subscribe (lit "lint") m [lit "a.txt"; lit "b.txt"; lit "c.txt"]
       initialWorld)
    (lintPool m sched).
Proof. apply runSchedule_rtc. Qed.

Lemma lint_run_exists v :
  ∃ w', runProcessForEachFile lintExec plainChalk Regex.RegExp Regex.test noEnv
          (Next [lit "a.txt"; lit "b.txt"]) (lit "lint") AllInPwd [] [] 2 v
          initialWorld w'.
Proof.
  destruct (runAll_exists lintExec plainChalk [lit "a.txt"; lit "b.txt"]
              (lit "lint") 2 (createLogger v) v initialWorld ltac:(lia))
    as [w' Hw'].
  exists w'. eapply run_all; [by vm_compute|done|done].
Qed.

Lemma mergeMap_concurrency_witness :
  (Z.of_nat (length (active (lintPool 2 [1%nat]))) ≤ Z.max 2 0)%Z
  ∧ (buffer (lintPool 2 [1%nat]) ≠ [] →
     Z.of_nat (length (active (lintPool 2 [1%nat]))) = Z.max 2 0).
Proof.
  apply (mergeMap_concurrency lintExec plainChalk (lit "lint") 2
           (createLogger LogErrors) LogErrors
           [lit "a.txt"; lit "b.txt"; lit "c.txt"] initialWorld).
  apply lintPool_reachable.
Defined.

Lemma processes_spawned_in_order_witness :
  spawned (world (lintPool 2 [1%nat]))
  = [lit "lint a.txt 2>&1"; lit "lint b.txt 2>&1"; lit "lint c.txt 2>&1"].
Proof.
  destruct (processes_spawned_in_order lintExec plainChalk (lit "lint") 2
              (createLogger LogErrors) LogErrors
              [lit "a.txt"; lit "b.txt"; lit "c.txt"] initialWorld
              (lintPool 2 [1%nat]) (lintPool_reachable _ _)) as [H _].
  rewrite H. by vm_compute.
Defined.

Lemma sequential_results_in_file_order_witness :
  filename <$> acc (lintPool 1 [0%nat; 0%nat])
  = [lit "a.txt"; lit "b.txt"].
Proof.
  destruct (sequential_results_in_file_order lintExec plainChalk (lit "lint")
              (createLogger LogErrors) LogErrors
              [lit "a.txt"; lit "b.txt"; lit "c.txt"] initialWorld
              (lintPool 1 [0%nat; 0%nat]) (lintPool_reachable _ _)) as [H _].
  rewrite H. by vm_compute.
Defined.

Lemma run_outcome_witness :
  ∃ w', exited w' = Some 1%Z
        ∧ spawned w' = [lit "lint a.txt 2>&1"; lit "lint b.txt 2>&1"]
        ∧ length (logged w') = 4%nat.
Proof.
  destruct (lint_run_exists LogErrors) as [w' Hrun]. exists w'.
  destruct (run_outcome lintExec plainChalk Regex.RegExp Regex.test noEnv
              (Next [lit "a.txt"; lit "b.txt"]) (lit "lint") AllInPwd [] [] 2
              LogErrors initialWorld w' [lit "a.txt"; lit "b.txt"]
              initialWorld) as (results & Hp & Hs & Hl & He);
    [by vm_compute|done|done|].
  split_and!.
  - rewrite He. unfold exitStatus.
    assert (existsb (λ b, bool_decide (code (child b) ≠ ExitCode 0)) results
            = true) as ->; [|done].
    apply existsb_exists.
    exists (execProcess lintExec (lit "lint") (lit "b.txt")).
    split; [|by vm_compute]. apply list_elem_of_In. rewrite Hp. set_solver.
  - rewrite Hs. by vm_compute.
  - rewrite Hl. simpl. rewrite length_app. unfold linesFor.
    rewrite length_fmap, (Permutation_length Hp). done.
Defined.

Lemma run_log_grows_silent_writes_nothing_witness :
  ∃ w', runProcessForEachFile lintExec plainChalk Regex.RegExp Regex.test noEnv
          (Next [lit "a.txt"; lit "b.txt"]) (lit "lint") AllInPwd [] [] 2 Silent
          initialWorld w'
        ∧ logged w' = [].
Proof.
  destruct (lint_run_exists Silent) as [w' Hrun]. exists w'. split; [done|].
  destruct (run_log_grows_silent_writes_nothing _ _ _ _ _ _ _ _ _ _ _ _ _ _
              Hrun) as (more & -> & Hmore).
  by rewrite Hmore.
Defined.

Lemma selection_failure_aborts_witness :
  ∃ e, error e = true ∧ code e = ExitCode 128
       ∧ ∃ w', runProcessForEachFile gitFailsExec plainChalk Regex.RegExp
                 Regex.test noEnv (Next []) (lit "lint") StagedInGit [] [] 2
                 LogErrors initialWorld w'
               ∧ uncaught w' = Some (ChildFailed e) ∧ logged w' = []
               ∧ exited w' = None.
Proof.
  destruct (selection_failure_aborts gitFailsExec plainChalk Regex.RegExp
              Regex.test noEnv (Next []) (lit "lint") StagedInGit [] [] 2
              LogErrors initialWorld) as (e & Herr & [w' Hrun] & Hall).
  { eexists. split; [apply list_elem_of_here|]. by eexists. }
  exists e. destruct (Hall w' Hrun) as (Hu & _ & Hl & Hx).
  split_and!; [done| |by exists w'].
  inversion Hrun as [? ? Hf|? ? ? Hf|w1 e' Hf Hw]; try (by vm_compute in Hf).
  vm_compute in Hf. subst w'. simpl in Hu. by simplify_eq.
Defined.

Lemma linesFromStdout_join_witness :
  split_newlines (lit "a.ts" ++ [CR; LF] ++ lit "b.ts")
  = [lit "a.ts"; lit "b.ts"]
  ∧ linesFromStdout (lit "a.ts" ++ [CR; LF] ++ lit "b.ts")
    = list_to_set [lit "a.ts"; lit "b.ts"].
Proof.
  apply (linesFromStdout_join [CR; LF] [lit "a.ts"; lit "b.ts"]).
  - by right.
  - done.
  - repeat constructor; vm_compute; set_solver.
Defined.

Lemma git_selection_never_empty_witness :
  [[]] ≠ ([] : list jsstring) ∧ ∀ a, linesFromStdout a ≠ ∅.
Proof.
  apply (git_selection_never_empty quietExec Regex.RegExp Regex.test noEnv (Next [])
           StagedInGit initialWorld [[]]
           (spawn (lit "git --no-pager diff --name-only --diff-filter=AM --staged")
              initialWorld)).
  - done.
  - by vm_compute.
Defined.

Lemma git_names_recovered_witness :
  (_filesToRunOn twoNamesExec noEnv (Next []) IndexedInGit initialWorld).1
  = Next (list_to_set [lit "a.ts"; lit "b.ts"]).
Proof.
  apply (git_names_recovered twoNamesExec noEnv (Next []) IndexedInGit
           [lit "a.ts"; lit "b.ts"] initialWorld).
  - by left.
  - done.
  - repeat constructor; try done; by vm_compute.
  - intros c _. split; [done|]. by vm_compute.
Defined.


Lemma no_parallelism_no_outcome_witness :
  (∀ w', ¬ runAll lintExec plainChalk [lit "a.txt"] (lit "lint") 0
              (createLogger LogErrors) LogErrors initialWorld w')
  ∧ ∀ st, rtc (step lintExec plainChalk (lit "lint") 0
                 (createLogger LogErrors) LogErrors)
            (subscribe (lit "lint") 0 [lit "a.txt"]
               (info (createLogger LogErrors) (messageForHeader [lit "a.txt"])
                  initialWorld)) st →
          active st = [] ∧ buffer st = [lit "a.txt"] ∧ acc st = []
          ∧ spawned (world st) = spawned initialWorld
          ∧ exited (world st) = exited initialWorld.
Proof.
  apply (no_parallelism_no_outcome lintExec plainChalk [lit "a.txt"]
           (lit "lint") 0 (createLogger LogErrors) LogErrors initialWorld).
  - lia.
  - done.
Defined.

(** The outcome of [runAll] on [a.txt] and [b.txt] under a schedule. *)
Definition lintOutcome (sched : list nat) : World :=
  default initialWorld
    (runAllWith lintExec plainChalk sched [lit "a.txt"; lit "b.txt"]
       (lit "lint") 2 (createLogger LogErrors) LogErrors initialWorld).

Lemma lintOutcome_runAll sched :
  sched = [0%nat; 0%nat] ∨ sched = [1%nat; 0%nat] →
  runAll lintExec plainChalk [lit "a.txt"; lit "b.txt"] (lit "lint") 2
    (createLogger LogErrors) LogErrors initialWorld (lintOutcome sched).
Proof.
  intros [-> | ->].
  - apply (runAllWith_runAll lintExec plainChalk [0%nat; 0%nat]).
    by vm_compute.
  - apply (runAllWith_runAll lintExec plainChalk [1%nat; 0%nat]).
    by vm_compute.
Qed.

Lemma runAll_schedule_independent_witness :
  exited (lintOutcome [0%nat; 0%nat]) = exited (lintOutcome [1%nat; 0%nat])
  ∧ spawned (lintOutcome [0%nat; 0%nat]) = spawned (lintOutcome [1%nat; 0%nat])
  ∧ length (logged (lintOutcome [0%nat; 0%nat]))
    = length (logged (lintOutcome [1%nat; 0%nat]))
  ∧ logged (lintOutcome [0%nat; 0%nat]) ≠ logged (lintOutcome [1%nat; 0%nat]).
Proof.
  destruct (runAll_schedule_independent lintExec plainChalk
              [lit "a.txt"; lit "b.txt"] (lit "lint") 2
              (createLogger LogErrors) LogErrors initialWorld
              (lintOutcome [0%nat; 0%nat]) (lintOutcome [1%nat; 0%nat]))
    as (He & Hs & Hl & _).
  - apply lintOutcome_runAll. by left.
  - apply lintOutcome_runAll. by right.
  - split_and!; [done..|]. by vm_compute.
Defined.

(** C8 as stated fails under [Silent]: [lint] rejects [b.txt], the process
    exits with status 1, and neither the summary nor any detail of the
    failure is logged. *)
Lemma summary_silent_counterexample :
  ∃ w', runAll lintExec plainChalk [lit "a.txt"; lit "b.txt"] (lit "lint") 2
          (createLogger Silent) Silent initialWorld w'
        ∧ code (child (execProcess lintExec (lit "lint") (lit "b.txt")))
          = ExitCode 1
        ∧ exited w' = Some 1%Z
        ∧ logged w' = [].
Proof.
  eexists. split.
  - apply (runAllWith_runAll lintExec plainChalk [0%nat; 0%nat]).
    vm_compute. reflexivity.
  - by vm_compute.
Qed.

Lemma summary_emitted_unless_silent_witness :
  ∃ w', runAll lintExec plainChalk [lit "a.txt"; lit "b.txt"] (lit "lint") 2
          (createLogger LogErrors) LogErrors initialWorld w'
        ∧ ∃ results,
            results ≡ₚ execProcess lintExec (lit "lint")
                       <$> [lit "a.txt"; lit "b.txt"]
            ∧ last (logged w')
              = Some (messageForSummary plainChalk results LogErrors).
Proof.
  destruct (summary_emitted_unless_silent lintExec plainChalk
              [lit "a.txt"; lit "b.txt"] (lit "lint") 2 LogErrors initialWorld)
    as [[w' Hw'] Hall]; [lia|].
  exists w'. split; [done|].
  destruct (Hall w' Hw') as (results & Hp & _ & _ & Hlast & _).
  exists results. split; [done|]. by apply Hlast.
Defined.

Lemma listing_failure_aborts_witness :
  ∃ w', runProcessForEachFile quietExec plainChalk Regex.RegExp Regex.test noEnv
          (Error {| message := lit "EACCES: permission denied, scandir" |})
          (lit "lint") AllInPwd [] [] 2 LogErrors initialWorld w'
        ∧ uncaught w'
          = Some (ListingFailed
                    {| message := lit "EACCES: permission denied, scandir" |})
        ∧ spawned w' = [] ∧ logged w' = [] ∧ exited w' = None.
Proof.
  destruct (listing_failure_aborts quietExec plainChalk Regex.RegExp
              Regex.test noEnv
              (Error {| message := lit "EACCES: permission denied, scandir" |})
              (lit "lint") [] [] 2 LogErrors initialWorld
              {| message := lit "EACCES: permission denied, scandir" |})
    as [[w' Hrun] Hall]; [done|].
  exists w'. split; [done|]. by apply Hall.
Defined.
